(** * Edit-tag spell correction: alignment, vocabulary, labels, reconstruction

    A shallow embedding of the token-level core of the edit-tag spell fixer:

    - [backend/edit_tag_spellfix/tags.py]: tag constants and helpers,
      [diff_to_tags], [build_tag_vocab];
    - [backend/edit_tag_spellfix/predict.py] and [backend/model_loader.py]:
      [apply_tags] and [_apply_tags], [predict_sentence] with its
      selection loop, the inverse vocabulary [id2tag];
    - [backend/edit_tag_spellfix/predict_verbose.py]: the reconstruction
      loop of [predict_verbose];
    - [backend/edit_tag_spellfix/data.py]: [TagDatasetBuilder] with
      [analyse] and [encode_examples] and its label loop;
    - Python's [difflib.SequenceMatcher] (CPython 3.11), on which
      [diff_to_tags] rests: [__chain_b], [find_longest_match],
      [get_matching_blocks], [get_opcodes];
    - the string methods [strip] and [split], by which every entry point
      turns a sentence into tokens.

    The tokenizer and the network are parameters of the functions that
    call them.

    Conventions.  A Python [str] is a [string] (its UTF-8 bytes): equality,
    [startswith] and [split] on ASCII text, and the code-point order used by
    [sorted] all agree with their byte-wise counterparts.  Python indices
    and lengths are natural numbers; each place where Python's integer
    subtraction could differ from truncated subtraction is commented.  A
    Python [dict] is a [gmap], a [set] a [gset]. *)

From Stdlib Require Import Ascii.
From stdpp Require Import gmap strings list fin_maps fin_sets sorting.

Set Warnings "-clear-no-such-hyp".

(** ** Outcomes of a Python call *)

Inductive exn : Type :=
| IndexError
| KeyError
| AssertionError.

(** [Diverges] is what the model answers when a [while] loop is cut off by
    its step budget; the theorems show that it never happens. *)
Inductive outcome (A : Type) : Type :=
| Ok (x : A)
| Raises (e : exn)
| Diverges.

Arguments Ok {A} x.
Arguments Raises {A} e.
Arguments Diverges {A}.

(** [enumerate(l)] *)
Definition enumerate {A : Type} (l : list A) : list (nat * A) := imap pair l.

(** [l[i1:i2]] for non-negative [i1], [i2]: both ends are clamped to
    the list, and the slice is empty when [i2 <= i1]. *)
Definition slice {A : Type} (l : list A) (i1 i2 : nat) : list A :=
  take (i2 - i1) (drop i1 l).

(** ** difflib.SequenceMatcher(None, a, b) *)

Module difflib.

(** [Match(a, b, size)] *)
Definition Match : Type := nat * nat * nat.

Inductive optag : Type := op_equal | op_delete | op_replace | op_insert.

#[global] Instance optag_eq_dec : EqDecision optag.
Proof. solve_decision. Defined.

(** An opcode [(tag, i1, i2, j1, j2)]. *)
Record opcode : Type := Opcode {
  op_tag : optag;
  op_i1 : nat;
  op_i2 : nat;
  op_j1 : nat;
  op_j2 : nat
}.

(** First loop of [__chain_b]:
    [indices = b2j.setdefault(elt, []); indices.append(i)]. *)
Definition b2j_add (b2j : gmap string (list nat)) (ie : nat * string)
  : gmap string (list nat) :=
  <[ie.2 := default [] (b2j !! ie.2) ++ [ie.1]]> b2j.

Definition b2j_all (b : list string) : gmap string (list nat) :=
  foldl b2j_add ∅ (enumerate b).

(** [isjunk] is [None]: the junk set stays empty. *)
Definition bjunk : gset string := ∅.

Definition isbjunk (x : string) : bool := bool_decide (x ∈ bjunk).

(** The popular elements: [autojunk] is on by default, so when
    [n >= 200] every element with more than [n // 100 + 1] occurrences. *)
Definition bpopular (b : list string) : gset string :=
  let n := length b in
  if decide (200 ≤ n) then
    let ntest := n `div` 100 + 1 in
    dom (filter (λ kv : string * list nat, ntest < length kv.2) (b2j_all b))
  else ∅.

(** [__chain_b]: [for elt in popular: del b2j[elt]]. *)
Definition chain_b (b : list string) : gmap string (list nat) :=
  set_fold delete (b2j_all b) (bpopular b).

Section matcher.
Variables a b : list string.

Definition b2j : gmap string (list nat) := chain_b b.

(** [b2j.get(a[i], nothing)]; [i] ranges over [range(alo, ahi)], inside
    [a] for every call made by [get_matching_blocks]. *)
Definition b2j_get (i : nat) : list nat :=
  match a !! i with
  | Some x => default [] (b2j !! x)
  | None => []
  end.

(** [j2len.get(j-1, 0)]: for [j = 0] the key [-1] is never present. *)
Definition j2lenget (j2len : gmap nat nat) (j : nat) : nat :=
  match j with
  | 0 => 0
  | S j' => default 0 (j2len !! j')
  end.

(** The inner [for j in b2j.get(a[i], nothing)] of [find_longest_match],
    with its [continue] and [break].  [i-k+1] and [j-k+1] are written
    [S i - k] and [S j - k]: [k] never exceeds [i+1] or [j+1]
    (lemma [inner_loop_inv]). *)
Fixpoint inner_loop (i blo bhi : nat) (j2len : gmap nat nat)
    (js : list nat) (newj2len : gmap nat nat) (best : Match)
  : gmap nat nat * Match :=
  match js with
  | [] => (newj2len, best)
  | j :: js' =>
    if decide (j < blo) then inner_loop i blo bhi j2len js' newj2len best
    else if decide (bhi ≤ j) then (newj2len, best)
    else
      let k := j2lenget j2len j + 1 in
      let newj2len := <[j := k]> newj2len in
      let best := if decide (best.2 < k) then (S i - k, S j - k, k)
                  else best in
      inner_loop i blo bhi j2len js' newj2len best
  end.

(** One turn of [for i in range(alo, ahi)]. *)
Definition outer_step (blo bhi : nat) (st : gmap nat nat * Match) (i : nat)
  : gmap nat nat * Match :=
  inner_loop i blo bhi st.1 (b2j_get i) ∅ st.2.

Definition main_loop (alo ahi blo bhi : nat) : gmap nat nat * Match :=
  foldl (outer_step blo bhi) (∅, (alo, blo, 0)) (seq alo (ahi - alo)).

(** [a[i] == b[j]] together with the junk test on [b[j]]; both indices
    are inside their lists whenever the loop guards hold. *)
Definition same_elem (junk : bool) (i j : nat) : bool :=
  match a !! i, b !! j with
  | Some x, Some y => bool_decide (isbjunk y = junk) && bool_decide (x = y)
  | _, _ => false
  end.

(** [while besti > alo and bestj > blo and (not) isbjunk(b[bestj-1])
    and a[besti-1] == b[bestj-1]]: one step back per turn. *)
Fixpoint extend_back (junk : bool) (alo blo : nat)
    (besti bestj bestsize : nat) : Match :=
  match besti, bestj with
  | S i', S j' =>
    if decide (alo < besti) then
      if decide (blo < bestj) then
        if same_elem junk i' j'
        then extend_back junk alo blo i' j' (bestsize + 1)
        else (besti, bestj, bestsize)
      else (besti, bestj, bestsize)
    else (besti, bestj, bestsize)
  | _, _ => (besti, bestj, bestsize)
  end.

(** [while besti+bestsize < ahi and bestj+bestsize < bhi and ...]:
    [room] is [ahi - (besti+bestsize)], so [room = 0] is the loop
    guard [besti+bestsize < ahi] failing. *)
Fixpoint extend_fwd_loop (junk : bool) (bhi : nat) (room : nat)
    (besti bestj bestsize : nat) : Match :=
  match room with
  | 0 => (besti, bestj, bestsize)
  | S room' =>
    if decide (bestj + bestsize < bhi) then
      if same_elem junk (besti + bestsize) (bestj + bestsize)
      then extend_fwd_loop junk bhi room' besti bestj (bestsize + 1)
      else (besti, bestj, bestsize)
    else (besti, bestj, bestsize)
  end.

Definition extend_fwd (junk : bool) (ahi bhi : nat) (m : Match) : Match :=
  let '(besti, bestj, bestsize) := m in
  extend_fwd_loop junk bhi (ahi - (besti + bestsize)) besti bestj bestsize.

Definition extend (junk : bool) (alo ahi blo bhi : nat) (m : Match)
  : Match :=
  let '(besti, bestj, bestsize) := m in
  extend_fwd junk ahi bhi (extend_back junk alo blo besti bestj bestsize).

Definition find_longest_match (alo ahi blo bhi : nat) : Match :=
  let best := (main_loop alo ahi blo bhi).2 in
  let best := extend false alo ahi blo bhi best in
  extend true alo ahi blo bhi best.

(** The [while queue:] loop of [get_matching_blocks].  [queue] is used
    as a stack: its top (the end of the Python list) is the head here.
    Each turn spends one unit of [fuel]. *)
Fixpoint matching_loop (fuel : nat) (queue : list (nat * nat * nat * nat))
    (matching_blocks : list Match) : option (list Match) :=
  match queue with
  | [] => Some matching_blocks
  | (alo, ahi, blo, bhi) :: queue =>
    match fuel with
    | 0 => None
    | S fuel =>
      let x := find_longest_match alo ahi blo bhi in
      let '(i, j, k) := x in
      if decide (k ≠ 0) then
        let matching_blocks := matching_blocks ++ [x] in
        let queue :=
          if decide (alo < i ∧ blo < j) then (alo, i, blo, j) :: queue
          else queue in
        let queue :=
          if decide (i + k < ahi ∧ j + k < bhi)
          then (i + k, ahi, j + k, bhi) :: queue
          else queue in
        matching_loop fuel queue matching_blocks
      else matching_loop fuel queue matching_blocks
    end
  end.

(** Tuple order of Python on [(i, j, k)]. *)
Definition match_le (x y : Match) : Prop :=
  let '(i1, j1, k1) := x in
  let '(i2, j2, k2) := y in
  i1 < i2 ∨ (i1 = i2 ∧ (j1 < j2 ∨ (j1 = j2 ∧ k1 ≤ k2))).

#[global] Instance match_le_dec : RelDecision match_le.
Proof. intros [[i1 j1] k1] [[i2 j2] k2]. simpl. apply _. Defined.

(** [matching_blocks.sort()]: the order is total and antisymmetric, so
    the sorted list does not depend on the sorting algorithm. *)
Definition sort_blocks (l : list Match) : list Match := merge_sort match_le l.

(** The loop that collapses adjacent blocks; state
    [(i1, j1, k1, non_adjacent)]. *)
Definition collapse_step (st : Match * list Match) (x : Match)
  : Match * list Match :=
  let '((i1, j1, k1), non_adjacent) := st in
  let '(i2, j2, k2) := x in
  if decide (i1 + k1 = i2 ∧ j1 + k1 = j2) then
    ((i1, j1, k1 + k2), non_adjacent)
  else
    ((i2, j2, k2),
     if decide (k1 ≠ 0) then non_adjacent ++ [(i1, j1, k1)]
     else non_adjacent).

Definition collapse (matching_blocks : list Match) : list Match :=
  let '((i1, j1, k1), non_adjacent) :=
    foldl collapse_step ((0, 0, 0), []) matching_blocks in
  let non_adjacent :=
    if decide (k1 ≠ 0) then non_adjacent ++ [(i1, j1, k1)]
    else non_adjacent in
  non_adjacent ++ [(length a, length b, 0)].

(** The budget [2 * len(a) + 1] is enough for every input
    (lemma [get_matching_blocks_total]). *)
Definition get_matching_blocks : option (list Match) :=
  let la := length a in
  let lb := length b in
  blocks ← matching_loop (2 * la + 1) [(0, la, 0, lb)] [];
  Some (collapse (sort_blocks blocks)).

(** One turn of the loop of [get_opcodes]; state [(i, j, answer)]. *)
Definition opcode_step (st : nat * nat * list opcode) (m : Match)
  : nat * nat * list opcode :=
  let '(i, j, answer) := st in
  let '(ai, bj, size) := m in
  let tag :=
    if decide (i < ai ∧ j < bj) then Some op_replace
    else if decide (i < ai) then Some op_delete
    else if decide (j < bj) then Some op_insert
    else None in
  let answer :=
    match tag with
    | Some t => answer ++ [Opcode t i ai j bj]
    | None => answer
    end in
  let i' := ai + size in
  let j' := bj + size in
  let answer :=
    if decide (size ≠ 0) then answer ++ [Opcode op_equal ai i' bj j']
    else answer in
  (i', j', answer).

Definition opcodes_of (blocks : list Match) : list opcode :=
  (foldl opcode_step (0, 0, []) blocks).2.

Definition get_opcodes : option (list opcode) :=
  opcodes_of <$> get_matching_blocks.

End matcher.

End difflib.

(** ** edit_tag_spellfix/tags.py *)

Definition KEEP : string := "KEEP".
Definition DELETE : string := "DELETE".
Definition INSERT : string := "INSERT_".
Definition REPLACE : string := "REPLACE_".

(** [tag.startswith(INSERT)], [tag.startswith(REPLACE)] *)
Definition is_insert (tag : string) : bool := String.prefix INSERT tag.
Definition is_replace (tag : string) : bool := String.prefix REPLACE tag.

(** What follows the first ["_"] of [s], if there is one:
    [s.split("_", 1)[1]] when ["_" in s]. *)
Fixpoint after_underscore (s : string) : option string :=
  match s with
  | EmptyString => None
  | String c s' =>
    if decide (c = "_"%char) then Some s' else after_underscore s'
  end.

(** [tag.split("_", 1)[1] if "_" in tag else ""] *)
Definition strip_prefix (tag : string) : string :=
  default "" (after_underscore tag).

(** [" ".join(l)] *)
Definition join_spaces (l : list string) : string := String.concat " " l.

Record TaggedExample : Type := mkTaggedExample {
  tokens : list string;
  tags : list string;
  gap_tags : list string
}.

(** [gaps[gap_idx] = v]: Python raises [IndexError] outside the list. *)
Definition set_gap (gaps : list string) (gap_idx : nat) (v : string)
  : outcome (list string) :=
  if decide (gap_idx < length gaps) then Ok (<[gap_idx := v]> gaps)
  else Raises IndexError.

(** [" ".join(f"{INSERT}{t}" for t in span)] *)
Definition insert_entry (span : list string) : string :=
  join_spaces ((λ t, INSERT +:+ t) <$> span).

Import difflib.

(** The [while i < len(opcodes)] loop of [diff_to_tags].  [ops] is
    [opcodes[i:]]; the fused branch drops two opcodes ([i += 1] twice).
    [i2 - i1] is only used as a repetition count and compared with [1],
    where truncated subtraction and Python's agree. *)
Fixpoint walk (orig_tokens cor_tokens : list string) (ops : list opcode)
    (tags gaps : list string) : outcome (list string * list string) :=
  match ops with
  | [] => Ok (tags, gaps)
  | Opcode op i1 i2 j1 j2 :: rest =>
    match op with
    | op_equal =>
      walk orig_tokens cor_tokens rest (tags ++ replicate (i2 - i1) KEEP) gaps
    | op_delete =>
      match rest with
      | Opcode op' _ _ j1' j2' :: rest' =>
        if decide (op' = op_insert ∧ i2 - i1 = 1 ∧ j2' - j1' = 1) then
          match cor_tokens !! j1' with
          | Some new_tok =>
            walk orig_tokens cor_tokens rest'
                 (tags ++ [REPLACE +:+ new_tok]) gaps
          | None => Raises IndexError
          end
        else
          walk orig_tokens cor_tokens rest
               (tags ++ replicate (i2 - i1) DELETE) gaps
      | [] =>
        walk orig_tokens cor_tokens rest
             (tags ++ replicate (i2 - i1) DELETE) gaps
      end
    | op_replace =>
      let span_orig := slice orig_tokens i1 i2 in
      let span_cor := slice cor_tokens j1 j2 in
      if decide (length span_orig = length span_cor) then
        walk orig_tokens cor_tokens rest
             (tags ++ ((λ new_tok, REPLACE +:+ new_tok) <$> span_cor)) gaps
      else
        let tags := tags ++ replicate (length span_orig) DELETE in
        let gap_idx := length tags in
        match set_gap gaps gap_idx (insert_entry span_cor) with
        | Ok gaps => walk orig_tokens cor_tokens rest tags gaps
        | Raises e => Raises e
        | Diverges => Diverges
        end
    | op_insert =>
      let gap_idx := length tags in
      match set_gap gaps gap_idx (insert_entry (slice cor_tokens j1 j2)) with
      | Ok gaps => walk orig_tokens cor_tokens rest tags gaps
      | Raises e => Raises e
      | Diverges => Diverges
      end
    end
  end.

(** What [diff_to_tags] does once the opcodes are known. *)
Definition tags_of_opcodes (orig_tokens cor_tokens : list string)
    (opcodes : list opcode) : outcome TaggedExample :=
  let gaps := replicate (length orig_tokens + 1) "KEEP_GAP" in
  match walk orig_tokens cor_tokens opcodes [] gaps with
  | Ok (tags, gaps) =>
    if decide (length tags = length orig_tokens)
    then Ok (mkTaggedExample orig_tokens tags gaps)
    else Raises AssertionError
  | Raises e => Raises e
  | Diverges => Diverges
  end.

Definition diff_to_tags (orig_tokens cor_tokens : list string)
  : outcome TaggedExample :=
  match get_opcodes orig_tokens cor_tokens with
  | Some opcodes => tags_of_opcodes orig_tokens cor_tokens opcodes
  | None => Diverges
  end.

(** [diff_to_tags] without the look-ahead of its [delete] branch: a
    [delete] opcode always yields [DELETE] tags. *)
Fixpoint walk_nofusion (orig_tokens cor_tokens : list string)
    (ops : list opcode) (tags gaps : list string)
  : outcome (list string * list string) :=
  match ops with
  | [] => Ok (tags, gaps)
  | Opcode op i1 i2 j1 j2 :: rest =>
    match op with
    | op_equal =>
      walk_nofusion orig_tokens cor_tokens rest
                    (tags ++ replicate (i2 - i1) KEEP) gaps
    | op_delete =>
      walk_nofusion orig_tokens cor_tokens rest
                    (tags ++ replicate (i2 - i1) DELETE) gaps
    | op_replace =>
      let span_orig := slice orig_tokens i1 i2 in
      let span_cor := slice cor_tokens j1 j2 in
      if decide (length span_orig = length span_cor) then
        walk_nofusion orig_tokens cor_tokens rest
             (tags ++ ((λ new_tok, REPLACE +:+ new_tok) <$> span_cor)) gaps
      else
        let tags := tags ++ replicate (length span_orig) DELETE in
        let gap_idx := length tags in
        match set_gap gaps gap_idx (insert_entry span_cor) with
        | Ok gaps => walk_nofusion orig_tokens cor_tokens rest tags gaps
        | Raises e => Raises e
        | Diverges => Diverges
        end
    | op_insert =>
      let gap_idx := length tags in
      match set_gap gaps gap_idx (insert_entry (slice cor_tokens j1 j2)) with
      | Ok gaps => walk_nofusion orig_tokens cor_tokens rest tags gaps
      | Raises e => Raises e
      | Diverges => Diverges
      end
    end
  end.

Definition diff_to_tags_nofusion (orig_tokens cor_tokens : list string)
  : outcome TaggedExample :=
  match get_opcodes orig_tokens cor_tokens with
  | Some opcodes =>
    let gaps := replicate (length orig_tokens + 1) "KEEP_GAP" in
    match walk_nofusion orig_tokens cor_tokens opcodes [] gaps with
    | Ok (tags, gaps) =>
      if decide (length tags = length orig_tokens)
      then Ok (mkTaggedExample orig_tokens tags gaps)
      else Raises AssertionError
    | Raises e => Raises e
    | Diverges => Diverges
    end
  | None => Diverges
  end.

(** *** build_tag_vocab *)

(** The order of [sorted] on strings. *)
Definition str_le (s t : string) : Prop := String.leb s t = true.

#[global] Instance str_le_dec : RelDecision str_le.
Proof. intros s t. unfold str_le. apply _. Defined.

(** [sorted(tag_set)]: the elements of the set, in whatever order the set
    yields them, sorted. *)
Definition sorted (tag_set : gset string) : list string :=
  merge_sort str_le (elements tag_set).

(** [tag_set = {KEEP, DELETE}; for ex in examples: tag_set.update(ex.tags)] *)
Definition tag_set_of (examples : list TaggedExample) : gset string :=
  foldl (λ tag_set ex, tag_set ∪ list_to_set (tags ex)) {[KEEP; DELETE]}
        examples.

(** [{t: i for i, t in enumerate(tag_list)}] *)
Definition index_map (tag_list : list string) : gmap string nat :=
  foldl (λ m it, <[it.2 := it.1]> m) ∅ (enumerate tag_list).

Definition build_tag_vocab (examples : list TaggedExample)
  : list string * gmap string nat :=
  let tag_list := sorted (tag_set_of examples) in
  (tag_list, index_map tag_list).

(** ** edit_tag_spellfix/predict.py and model_loader.py *)

(** One turn of [for tok, tg in zip(tokens, tags)]. *)
Definition apply_step (out : list string) (p : string * string)
  : list string :=
  let '(tok, tg) := p in
  if decide (tg = KEEP) then out ++ [tok]
  else if decide (tg = DELETE) then out
  else if is_replace tg then out ++ [strip_prefix tg]
  else out ++ [tok].

Definition apply_tags (tokens tags : list string) : string :=
  join_spaces (foldl apply_step [] (zip tokens tags)).

(** [model_loader._apply_tags] has the same body. *)
Definition _apply_tags (tokens tags : list string) : string :=
  join_spaces (foldl apply_step [] (zip tokens tags)).

(** ** edit_tag_spellfix/data.py: the label loop of encode_examples *)

Definition IGNORE : Z := (-100)%Z.

(** One turn of [for idx, w_id in enumerate(word_ids)].  [tag2id[KEEP]]
    is evaluated as an argument of [tag2id.get], so a vocabulary without
    [KEEP] raises [KeyError]. *)
Definition label_step (word_ids : list (option nat)) (tag_seq : list string)
    (tag2id : gmap string nat) (st : outcome (list Z))
    (p : nat * option nat) : outcome (list Z) :=
  match st with
  | Ok labels =>
    let '(idx, w_id) := p in
    match w_id with
    | None => Ok labels
    | Some w =>
      if decide (idx = 0 ∨ word_ids !! (idx - 1) ≠ Some w_id) then
        let tag := if decide (w < length tag_seq)
                   then default KEEP (tag_seq !! w) else KEEP in
        match tag2id !! KEEP with
        | Some keep_id =>
          Ok (<[idx := Z.of_nat (default keep_id (tag2id !! tag))]> labels)
        | None => Raises KeyError
        end
      else Ok labels
    end
  | _ => st
  end.

(** [labels = [-100] * len(word_ids)] followed by the loop. *)
Definition assign_labels (word_ids : list (option nat))
    (tag_seq : list string) (tag2id : gmap string nat) : outcome (list Z) :=
  foldl (label_step word_ids tag_seq tag2id)
        (Ok (replicate (length word_ids) IGNORE)) (enumerate word_ids).

(** ** Built-in string methods: [str.strip()] and [str.split()]

    With no argument both methods work on whitespace.  On the bytes of
    a string the whitespace characters are the ASCII ones, the code
    points 9-13 and 28-32; the bytes of a character outside ASCII are
    all above 127.  The model agrees with Python on every string that
    holds none of the whitespace characters outside ASCII (U+0085,
    U+00A0, U+1680, U+2000-U+200A, U+2028, U+2029, U+202F, U+205F,
    U+3000). *)

(** [c.isspace()] *)
Definition isspace (c : ascii) : bool :=
  let n := nat_of_ascii c in
  bool_decide (9 ≤ n ≤ 13 ∨ 28 ≤ n ≤ 32).

(** [s.lstrip()] *)
Fixpoint lstrip (s : string) : string :=
  match s with
  | EmptyString => EmptyString
  | String c s' => if isspace c then lstrip s' else s
  end.

(** [s.rstrip()] *)
Fixpoint rstrip (s : string) : string :=
  match s with
  | EmptyString => EmptyString
  | String c s' =>
    match rstrip s' with
    | EmptyString => if isspace c then EmptyString else String c EmptyString
    | r => String c r
    end
  end.

(** [s.strip()] *)
Definition strip (s : string) : string := rstrip (lstrip s).

(** [s.split()]: the maximal runs of characters that are not whitespace.
    [cur] is the run being read. *)
Fixpoint split_go (cur : string) (s : string) : list string :=
  match s with
  | EmptyString => if decide (cur = "") then [] else [cur]
  | String c s' =>
    if isspace c then
      if decide (cur = "") then split_go "" s' else cur :: split_go "" s'
    else split_go (cur +:+ String c "") s'
  end.

Definition split (s : string) : list string := split_go "" s.

(** ** edit_tag_spellfix/predict_verbose.py: the reconstruction loop *)

(** An entry of [results]: [{"token": ..., "tag": ..., "probs": ...}].
    The probabilities play no part in the reconstruction; their type is
    left open. *)
Record token_result (P : Type) : Type := mkTokenResult {
  res_token : string;
  res_tag : string;
  res_probs : P
}.

Arguments mkTokenResult {P} _ _ _.
Arguments res_token {P} _.
Arguments res_tag {P} _.
Arguments res_probs {P} _.

(** One turn of [for orig, item in zip(tokens, results)]. *)
Definition verbose_step {P : Type} (corrected_tokens : list string)
    (p : string * token_result P) : list string :=
  let '(orig, item) := p in
  let tg := res_tag item in
  if decide (tg = KEEP) then corrected_tokens ++ [orig]
  else if decide (tg = DELETE) then corrected_tokens
  else if is_replace tg then corrected_tokens ++ [strip_prefix tg]
  else corrected_tokens ++ [orig].

(** The value of ["corrected"] in the result of [predict_verbose]. *)
Definition verbose_corrected {P : Type} (tokens : list string)
    (results : list (token_result P)) : string :=
  join_spaces (foldl verbose_step [] (zip tokens results)).

(** ** The inverse vocabulary

    [id2tag = {v: k for k, v in tag2id.items()}] (predict.py, model.py,
    model_loader.py).  [items] is [tag2id.items()] in the order in which
    the dictionary yields it; a later pair overwrites an earlier one
    with the same id. *)
Definition id2tag_of (items : list (string * nat)) : gmap nat string :=
  foldl (λ id2tag kv, <[kv.2 := kv.1]> id2tag) ∅ items.

(** ** edit_tag_spellfix/predict.py: predict_sentence *)

(** One turn of [for idx, w_id in enumerate(word_ids)] in
    [predict_sentence].  [pred_ids[idx]] raises [IndexError] past the
    end of [pred_ids], [id2tag[...]] raises [KeyError] for an id without
    a tag. *)
Definition select_step (word_ids : list (option nat)) (pred_ids : list nat)
    (id2tag : gmap nat string) (st : outcome (list string))
    (p : nat * option nat) : outcome (list string) :=
  match st with
  | Ok tags =>
    let '(idx, w_id) := p in
    match w_id with
    | None => Ok tags
    | Some w =>
      if decide (idx = 0 ∨ word_ids !! (idx - 1) ≠ Some w_id) then
        match pred_ids !! idx with
        | Some tag_id =>
          match id2tag !! tag_id with
          | Some tag => Ok (tags ++ [tag])
          | None => Raises KeyError
          end
        | None => Raises IndexError
        end
      else Ok tags
    end
  | _ => st
  end.

Definition select_tags (word_ids : list (option nat)) (pred_ids : list nat)
    (id2tag : gmap nat string) : outcome (list string) :=
  foldl (select_step word_ids pred_ids id2tag) (Ok []) (enumerate word_ids).

Section predict.
Context {B : Type}.

(** [tokenizer(orig_tokens, is_split_into_words=True, ...)], the word ids
    [batch.word_ids(batch_index=0)] of its result, and the model followed
    by [argmax(-1).squeeze().tolist()], a list for every sequence of two
    positions or more. *)
Variable tokenizer : list string → B.
Variable batch_word_ids : B → list (option nat).
Variable model : B → list nat.


End predict.

(** ** edit_tag_spellfix/data.py: TagDatasetBuilder *)

(** The fields of the builder that [analyse] and [encode_examples] read
    and write. *)
Record TagDatasetBuilder : Type := mkTagDatasetBuilder {
  tag_vocab_built : bool;
  tag2id : gmap string nat
}.

(** [__init__]: [tag_vocab_built = False], [tag2id = {}]. *)
Definition new_builder : TagDatasetBuilder := mkTagDatasetBuilder false ∅.

(** One turn of the loop of [analyse] over the rows
    [zip(df["original_text"], df["corrected_text"])]; state
    [(examples, tagged_objs)]. *)
Definition analyse_step
    (st : outcome (list (list string * list string) * list TaggedExample))
    (row : string * string)
  : outcome (list (list string * list string) * list TaggedExample) :=
  match st with
  | Ok (examples, tagged_objs) =>
    let '(orig, corr) := row in
    let orig_tokens := split (strip orig) in
    let corr_tokens := split (strip corr) in
    match diff_to_tags orig_tokens corr_tokens with
    | Ok te => Ok (examples ++ [(orig_tokens, tags te)], tagged_objs ++ [te])
    | Raises e => Raises e
    | Diverges => Diverges
    end
  | _ => st
  end.

(** [analyse] returns the examples and leaves the vocabulary in the
    builder. *)
Definition analyse (self : TagDatasetBuilder) (df : list (string * string))
  : outcome (list (list string * list string) * TagDatasetBuilder) :=
  match foldl analyse_step (Ok ([], [])) df with
  | Ok (examples, tagged_objs) =>
    let '(tag_list, tag2id) := build_tag_vocab tagged_objs in
    Ok (examples, mkTagDatasetBuilder true tag2id)
  | Raises e => Raises e
  | Diverges => Diverges
  end.

Section encode.
Context {E : Type}.

(** [tok(orig_tokens, is_split_into_words=True, max_length=...,
    truncation=True, padding="max_length")] and [enc.word_ids()].  A row
    [{"input_ids": ..., "attention_mask": ..., "labels": labels}] is the
    pair of the encoding and its labels. *)
Variable tok : list string → E.
Variable enc_word_ids : E → list (option nat).

Definition encode_step (self : TagDatasetBuilder)
    (st : outcome (list (E * list Z))) (ex : list string * list string)
  : outcome (list (E * list Z)) :=
  match st with
  | Ok encoded_rows =>
    let '(orig_tokens, tag_seq) := ex in
    let enc := tok orig_tokens in
    match assign_labels (enc_word_ids enc) tag_seq (tag2id self) with
    | Ok labels => Ok (encoded_rows ++ [(enc, labels)])
    | Raises e => Raises e
    | Diverges => Diverges
    end
  | _ => st
  end.

Definition encode_examples (self : TagDatasetBuilder)
    (examples : list (list string * list string))
  : outcome (list (E * list Z)) :=
  if tag_vocab_built self
  then foldl (encode_step self) (Ok []) examples
  else Raises AssertionError.

End encode.

(** * Specification vocabulary

    The predicates in which the properties of the code are stated. *)

(** The positions of [x] in [b], in increasing order. *)
Definition indices (x : string) (b : list string) : list nat :=
  (filter (λ p : nat * string, p.2 = x) (enumerate b)).*1.

Section flm_spec.
Variables a b : list string.
Import difflib.

(** [a[i:i+k] == b[j:j+k]], element by element. *)
Definition same_run (i j k : nat) : Prop :=
  ∀ t, t < k → ∃ x, a !! (i + t) = Some x ∧ b !! (j + t) = Some x.

(** A block that lies in the window [alo:ahi], [blo:bhi] and matches. *)
Definition match_ok (alo ahi blo bhi : nat) (m : Match) : Prop :=
  let '(i, j, k) := m in
  alo ≤ i ∧ i + k ≤ ahi ∧ blo ≤ j ∧ j + k ≤ bhi ∧ same_run i j k.

(** An entry [j2len[j] = k] of the row of [i]: a matching run of length
    [k] ends at [(i, j)] and stays inside the window. *)
Definition cell_ok (alo blo bhi i j k : nat) : Prop :=
  1 ≤ k ∧ alo + k ≤ S i ∧ blo + k ≤ S j ∧ j < bhi ∧
  same_run (S i - k) (S j - k) k.

Definition row_ok (alo blo bhi i : nat) (j2len : gmap nat nat) : Prop :=
  ∀ j k, j2len !! j = Some k → cell_ok alo blo bhi i j k.

(** The row before [i]; there is none when [i] is the first row. *)
Definition prev_ok (alo blo bhi i : nat) (j2len : gmap nat nat) : Prop :=
  ∀ j k, j2len !! j = Some k → ∃ i', i = S i' ∧ cell_ok alo blo bhi i' j k.

End flm_spec.

Section blocks_spec.
Variables a b : list string.
Import difflib.

(** Blocks that follow one another from [(i0, j0)] on: each starts at or
    after the end of the one before, is not empty, and matches. *)
Fixpoint chain_from (i0 j0 : nat) (c : list Match) : Prop :=
  match c with
  | [] => True
  | (i, j, k) :: c' =>
    i0 ≤ i ∧ j0 ≤ j ∧ 0 < k ∧ same_run a b i j k ∧
    chain_from (i + k) (j + k) c'
  end.

(** Where a chain that starts at [(i0, j0)] ends. *)
Fixpoint chain_end (i0 j0 : nat) (c : list Match) : nat * nat :=
  match c with
  | [] => (i0, j0)
  | (i, j, k) :: c' => chain_end (i + k) (j + k) c'
  end.

Definition chain_in (alo ahi blo bhi : nat) (c : list Match) : Prop :=
  chain_from alo blo c ∧
  (chain_end alo blo c).1 ≤ ahi ∧ (chain_end alo blo c).2 ≤ bhi.

(** The work done by the loop on one queued window: it appends to
    [matching_blocks] a permutation of a chain inside the window, and
    spends at most [2 * (ahi - alo) + 1] turns. *)
Definition window_done (alo ahi blo bhi : nat)
    (push : list (nat * nat * nat * nat) → list (nat * nat * nat * nat))
  : Prop :=
  ∃ bl c cost,
    cost ≤ 2 * (ahi - alo) + 1 ∧ bl ≡ₚ c ∧ chain_in alo ahi blo bhi c ∧
    ∀ queue acc fuel, cost ≤ fuel →
      matching_loop a b fuel (push queue) acc =
      matching_loop a b (fuel - cost) queue (acc ++ bl).

(** The block [(i1, j1, k1)] that the loop still holds back: the dummy
    [(0, 0, 0)] it starts from has [k1 = 0]. *)
Definition pending (m : Match) : list Match :=
  if decide (m.2 ≠ 0) then [m] else [].

End blocks_spec.

Section opcode_spec.
Variables a b : list string.
Import difflib.

(** What each kind of opcode says about its two spans. *)
Definition op_shape (o : opcode) : Prop :=
  match op_tag o with
  | op_equal =>
    op_i1 o < op_i2 o ∧ op_j1 o < op_j2 o ∧
    op_i2 o - op_i1 o = op_j2 o - op_j1 o ∧
    same_run a b (op_i1 o) (op_j1 o) (op_i2 o - op_i1 o)
  | op_delete => op_i1 o < op_i2 o ∧ op_j1 o = op_j2 o
  | op_insert => op_i1 o = op_i2 o ∧ op_j1 o < op_j2 o
  | op_replace => op_i1 o < op_i2 o ∧ op_j1 o < op_j2 o
  end.

Definition head_equal (ops : list opcode) : Prop :=
  match ops with
  | [] => True
  | o :: _ => op_tag o = op_equal
  end.

(** The opcodes from [(i, j)] on: each starts where the one before
    ended, the last one ends at [(len(a), len(b))], and an opcode that
    is not [equal] is the last one or is followed by an [equal]. *)
Fixpoint ops_ok (i j : nat) (ops : list opcode) : Prop :=
  match ops with
  | [] => i = length a ∧ j = length b
  | o :: rest =>
    op_i1 o = i ∧ op_j1 o = j ∧ op_shape o ∧
    (op_tag o ≠ op_equal → head_equal rest) ∧
    ops_ok (op_i2 o) (op_j2 o) rest
  end.

(** The opcodes of [get_opcodes], produced front to back. *)
Definition nonequal_op (i j ai bj : nat) : list opcode :=
  if decide (i < ai ∧ j < bj) then [Opcode op_replace i ai j bj]
  else if decide (i < ai) then [Opcode op_delete i ai j bj]
  else if decide (j < bj) then [Opcode op_insert i ai j bj]
  else [].

Fixpoint ops_rec (i j : nat) (blocks : list Match) : list opcode :=
  match blocks with
  | [] => []
  | (ai, bj, size) :: blocks =>
    nonequal_op i j ai bj ++
    (if decide (size ≠ 0)
     then [Opcode op_equal ai (ai + size) bj (bj + size)] else []) ++
    ops_rec (ai + size) (bj + size) blocks
  end.

End opcode_spec.

(** An entry of the gap sequence: untouched, or the [INSERT_] symbols of
    at least one word, joined with spaces. *)
Definition gap_entry (g : string) : Prop :=
  g = "KEEP_GAP" ∨ ∃ ws : list string, ws ≠ [] ∧ g = insert_entry ws.

(** Is there a [delete] opcode immediately followed by an [insert]? *)
Fixpoint adjacent_delete_insert (ops : list opcode) : bool :=
  match ops with
  | [] => false
  | o1 :: rest =>
    match rest with
    | [] => false
    | o2 :: _ =>
      bool_decide (op_tag o1 = op_delete ∧ op_tag o2 = op_insert)
      || adjacent_delete_insert rest
    end
  end.


(** The sentence pair of the demo at the end of tags.py. *)
Definition demo_orig : list string :=
  ["a"; "fuil"; "stack"; "engineer"; "huilding"; "web"; "apps"].

Definition demo_cor : list string :=
  ["a"; "full-stack"; "engineer"; "building"; "web"; "apps"].

Section label_spec.
Variables (word_ids : list (option nat)) (tag_seq : list string).
Variables (tag2id : gmap string nat) (keep_id : nat).

(** The id given to word [w]: the id of its tag, or the id of [KEEP]
    when [w] is past the end of [tag_seq] or its tag has no id. *)
Definition word_label (w : nat) : nat :=
  match tag_seq !! w with
  | Some tag => default keep_id (tag2id !! tag)
  | None => keep_id
  end.

(** Position [idx] holds the first sub-token of word [w]. *)
Definition first_subtoken (idx w : nat) : Prop :=
  word_ids !! idx = Some (Some w) ∧
  (idx = 0 ∨ word_ids !! (idx - 1) ≠ Some (Some w)).

(** The label of position [idx], as the specification words it. *)
Definition label_of (idx : nat) (w_id : option nat) : Z :=
  match w_id with
  | None => IGNORE
  | Some w =>
    if decide (idx = 0 ∨ word_ids !! (idx - 1) ≠ Some (Some w))
    then Z.of_nat (word_label w) else IGNORE
  end.

End label_spec.

Section identity_spec.
Variable T : list string.
Import difflib.

(** Position [j] holds an element that is a key of [b2j]: one that the
    popularity heuristic has not removed. *)
Definition is_key (j : nat) : bool :=
  match T !! j with
  | Some x => bool_decide (x ∉ bpopular T)
  | None => false
  end.

(** The number of consecutive keys that end just before position [j]. *)
Fixpoint key_run (j : nat) : nat :=
  match j with
  | 0 => 0
  | S j' => if is_key j' then key_run j' + 1 else 0
  end.

Definition diag (m : Match) : Prop := m.1.1 = m.1.2.

(** What the loop knows before the row of [i]: the best block lies on
    the diagonal and is at least as long as every run of keys that ends
    before [i]; no entry of the last row is longer than the run of keys
    before it, in [b] or in [a]; the entry on the diagonal is that run. *)
Definition row_inv (i : nat) (st : gmap nat nat * Match) : Prop :=
  diag st.2 ∧
  (∀ i', i' ≤ i → key_run i' ≤ st.2.2) ∧
  (∀ j k, st.1 !! j = Some k → k ≤ key_run (S j) ∧ k ≤ key_run i) ∧
  j2lenget st.1 i = key_run i.

End identity_spec.

(** The words that one (token, tag) pair adds to the reconstruction. *)
Definition token_piece (p : string * string) : list string := apply_step [] p.

(** The gap entry that stands for the inserted words [ws]. *)
Definition gap_of (ws : list string) : string :=
  if decide (ws = []) then "KEEP_GAP" else insert_entry ws.

(** Reading an alignment back: the words of gap 0, the words of token 0,
    the words of gap 1, and so on up to the words of the last gap. *)
Fixpoint interleave (spans pieces : list (list string)) : list string :=
  match spans with
  | [] => []
  | s :: spans =>
    s ++ match pieces with
         | [] => []
         | p :: pieces => p ++ interleave spans pieces
         end
  end.

(** What a tag of [diff_to_tags] says about its token: a kept token
    occurs in the corrected sequence, and the word of a [REPLACE_] tag
    is taken from there. *)
Definition tag_sound (cor : list string) (tok tg : string) : Prop :=
  (tg = KEEP ∧ tok ∈ cor) ∨ tg = DELETE ∨
  ∃ w, w ∈ cor ∧ tg = REPLACE +:+ w.

(** Carrying out the opcodes on [a]: an [equal] opcode copies its span
    of [a], [delete] drops it, [replace] and [insert] put the span of
    [b] in its place. *)
Definition replay (a b : list string) (ops : list opcode) : list string :=
  concat ((λ o, match op_tag o with
                | op_equal => slice a (op_i1 o) (op_i2 o)
                | op_delete => []
                | op_replace | op_insert => slice b (op_j1 o) (op_j2 o)
                end) <$> ops).

(** The first sub-tokens of a sequence of word ids, in order: the pairs
    of a position and the word that starts there. *)
Definition first_word (word_ids : list (option nat)) (p : nat * option nat)
  : option (nat * nat) :=
  match p.2 with
  | Some w =>
    if decide (p.1 = 0 ∨ word_ids !! (p.1 - 1) ≠ Some (Some w))
    then Some (p.1, w) else None
  | None => None
  end.

Definition first_subtokens (word_ids : list (option nat)) : list (nat * nat) :=
  omap (first_word word_ids) (enumerate word_ids).

(** The tag that a predicted id stands for at position [iw.1]. *)
Definition predicted (pred_ids : list nat) (id2tag : gmap nat string)
    (iw : nat * nat) (tg : string) : Prop :=
  ∃ tag_id, pred_ids !! iw.1 = Some tag_id ∧ id2tag !! tag_id = Some tg.




(** * Properties *)

(** ** The index table [b2j] *)

Section b2j_facts.
Implicit Types (b : list string) (x y : string) (j : nat).

Lemma enumerate_snoc {A} (l : list A) (x : A) :
  enumerate (l ++ [x]) = enumerate l ++ [(length l, x)].
Proof.
  unfold enumerate. rewrite imap_app. simpl. by rewrite Nat.add_0_r.
Qed.

Lemma elem_of_enumerate {A} (l : list A) (i : nat) (x : A) :
  (i, x) ∈ enumerate l ↔ l !! i = Some x.
Proof.
  unfold enumerate. rewrite elem_of_lookup_imap. split.
  - intros (i' & x' & [= -> ->] & H). done.
  - intros H. eauto.
Qed.

Lemma indices_snoc x y b :
  indices x (b ++ [y]) =
  indices x b ++ (if decide (y = x) then [length b] else []).
Proof.
  unfold indices. rewrite enumerate_snoc, filter_app, fmap_app. f_equal.
  rewrite filter_cons. simpl. by destruct (decide (y = x)).
Qed.

Lemma elem_of_indices x b j : j ∈ indices x b ↔ b !! j = Some x.
Proof.
  unfold indices. rewrite list_elem_of_fmap. split.
  - intros ([j' x'] & -> & H). apply list_elem_of_filter in H as [Hx H].
    simpl in *. subst. by apply elem_of_enumerate.
  - intros H. exists (j, x). split; [done|].
    apply list_elem_of_filter. split; [done|]. by apply elem_of_enumerate.
Qed.

Lemma indices_lt x b j : j ∈ indices x b → j < length b.
Proof. rewrite elem_of_indices. apply lookup_lt_Some. Qed.

(** The indices come in strictly increasing order. *)
Lemma indices_sorted x b : StronglySorted lt (indices x b).
Proof.
  induction b as [|y b IH] using rev_ind; [constructor|].
  rewrite indices_snoc. destruct (decide (y = x)).
  - apply StronglySorted_app_2; [|done|repeat constructor].
    intros j1 j2 H1 ->%list_elem_of_singleton. by eapply indices_lt.
  - by rewrite app_nil_r.
Qed.

Lemma b2j_all_snoc b y :
  difflib.b2j_all (b ++ [y]) =
  difflib.b2j_add (difflib.b2j_all b) (length b, y).
Proof.
  unfold difflib.b2j_all. by rewrite enumerate_snoc, foldl_app.
Qed.

(** After the first loop of [__chain_b], [b2j[x]] lists every position
    of [x] in [b], and only the elements of [b] are keys. *)
Lemma b2j_all_lookup b x :
  difflib.b2j_all b !! x =
  if decide (indices x b = []) then None else Some (indices x b).
Proof.
  induction b as [|y b IH] using rev_ind; [done|].
  rewrite b2j_all_snoc, indices_snoc. unfold difflib.b2j_add. simpl.
  destruct (decide (y = x)) as [->|Hne].
  - rewrite lookup_insert_eq, IH.
    destruct (decide (indices x b = [])) as [->|]; simpl.
    + done.
    + rewrite decide_False; [done|]. by intros [_ ?]%app_eq_nil.
  - rewrite lookup_insert_ne by done. by rewrite app_nil_r.
Qed.

Lemma set_fold_delete_lookup (m : gmap string (list nat))
    (X : gset string) x :
  set_fold delete m X !! x = if decide (x ∈ X) then None else m !! x.
Proof.
  revert X. apply (set_fold_ind_L (λ r X,
    r !! x = if decide (x ∈ X) then None else m !! x)).
  - by rewrite decide_False by set_solver.
  - intros y X r Hy IH. destruct (decide (x = y)) as [->|Hne].
    + rewrite lookup_delete_eq. by rewrite decide_True by set_solver.
    + rewrite lookup_delete_ne by done. rewrite IH.
      destruct (decide (x ∈ X)).
      * by rewrite decide_True by set_solver.
      * by rewrite decide_False by set_solver.
Qed.

Lemma chain_b_lookup b x :
  difflib.chain_b b !! x =
  if decide (x ∈ difflib.bpopular b) then None
  else if decide (indices x b = []) then None else Some (indices x b).
Proof.
  unfold difflib.chain_b. by rewrite set_fold_delete_lookup, b2j_all_lookup.
Qed.

(** Every index that [b2j] yields for [a[i]] is a position of [a[i]]
    in [b]. *)
Lemma b2j_get_sound (a b : list string) (i j : nat) :
  j ∈ difflib.b2j_get a b i →
  ∃ x, a !! i = Some x ∧ b !! j = Some x.
Proof.
  unfold difflib.b2j_get, difflib.b2j. destruct (a !! i) as [x|] eqn:Ha.
  - rewrite chain_b_lookup. intros H. exists x. split; [done|].
    destruct (decide _); [by apply elem_of_nil in H|].
    destruct (decide _); [by apply elem_of_nil in H|].
    by apply elem_of_indices.
  - intros H. by apply elem_of_nil in H.
Qed.

Lemma b2j_get_sorted (a b : list string) (i : nat) :
  StronglySorted lt (difflib.b2j_get a b i).
Proof.
  unfold difflib.b2j_get, difflib.b2j. destruct (a !! i) as [x|].
  - rewrite chain_b_lookup. repeat destruct (decide _); simpl;
      try constructor. apply indices_sorted.
  - constructor.
Qed.
End b2j_facts.

(** ** find_longest_match returns a match inside its window *)

Section flm_facts.
Variables a b : list string.
Import difflib.

Lemma same_run_snoc i j k x :
  same_run a b i j k → a !! (i + k) = Some x → b !! (j + k) = Some x →
  same_run a b i j (k + 1).
Proof.
  intros H Ha Hb t Ht. destruct (decide (t = k)) as [->|]; [eauto|].
  apply H. lia.
Qed.

Lemma same_run_cons i j k x :
  same_run a b (S i) (S j) k → a !! i = Some x → b !! j = Some x →
  same_run a b i j (k + 1).
Proof.
  intros H Ha Hb [|t] Ht.
  - rewrite !Nat.add_0_r. eauto.
  - destruct (H t) as (y & ? & ?); [lia|]. exists y.
    by rewrite <- !Nat.add_succ_comm.
Qed.

Lemma new_cell_ok alo blo bhi i j j2len x :
  prev_ok a b alo blo bhi i j2len → alo ≤ i → blo ≤ j → j < bhi →
  a !! i = Some x → b !! j = Some x →
  cell_ok a b alo blo bhi i j (j2lenget j2len j + 1).
Proof.
  intros Hprev Hi Hj Hj' Ha Hb. unfold j2lenget.
  assert (cell_ok a b alo blo bhi i j (0 + 1)) as H1.
  { repeat split; try lia. intros t Ht. assert (t = 0) as -> by lia.
    exists x. simpl. by rewrite !Nat.sub_0_r, !Nat.add_0_r. }
  destruct j as [|j']; [done|].
  destruct (j2len !! j') as [k|] eqn:Hk; [|done]. simpl.
  destruct (Hprev _ _ Hk) as (i' & -> & Hk1 & Hk2 & Hk3 & Hk4 & Hrun).
  repeat split; try lia.
  replace (S (S i') - (k + 1)) with (S i' - k) by lia.
  replace (S (S j') - (k + 1)) with (S j' - k) by lia.
  apply same_run_snoc with x; [done| |].
  - by replace (S i' - k + k) with (S i') by lia.
  - by replace (S j' - k + k) with (S j') by lia.
Qed.

Lemma cell_match_ok alo ahi blo bhi i j k :
  cell_ok a b alo blo bhi i j k → i < ahi →
  match_ok a b alo ahi blo bhi (S i - k, S j - k, k).
Proof. intros (? & ? & ? & ? & ?) ?. repeat split; try lia. done. Qed.

Lemma inner_loop_inv alo ahi blo bhi i j2len js newj2len best :
  prev_ok a b alo blo bhi i j2len → alo ≤ i → i < ahi →
  Forall (λ j, ∃ x, a !! i = Some x ∧ b !! j = Some x) js →
  row_ok a b alo blo bhi i newj2len →
  match_ok a b alo ahi blo bhi best →
  let r := inner_loop i blo bhi j2len js newj2len best in
  row_ok a b alo blo bhi i r.1 ∧ match_ok a b alo ahi blo bhi r.2.
Proof.
  intros Hprev Hi Hi' Hjs. revert newj2len best.
  induction Hjs as [|j js (x & Ha & Hb) _ IH]; intros newj2len best Hrow Hbest;
    simpl; [done|].
  destruct (decide (j < blo)); [by apply IH|].
  destruct (decide (bhi ≤ j)); [done|].
  assert (cell_ok a b alo blo bhi i j (j2lenget j2len j + 1)) as Hcell
    by (eapply new_cell_ok; eauto; lia).
  apply IH.
  - intros j0 k0. destruct (decide (j0 = j)) as [->|].
    + rewrite lookup_insert_eq. by intros [= <-].
    + rewrite lookup_insert_ne by done. apply Hrow.
  - destruct (decide _); [|done]. by eapply cell_match_ok.
Qed.

Lemma b2j_get_Forall i :
  Forall (λ j, ∃ x, a !! i = Some x ∧ b !! j = Some x) (b2j_get a b i).
Proof. apply Forall_forall. intros j. apply b2j_get_sound. Qed.

Lemma rows_inv alo ahi blo bhi n :
  alo + n ≤ ahi → blo ≤ bhi →
  let r := foldl (outer_step a b blo bhi) (∅, (alo, blo, 0)) (seq alo n) in
  prev_ok a b alo blo bhi (alo + n) r.1 ∧ match_ok a b alo ahi blo bhi r.2.
Proof.
  intros Hn Hb. induction n as [|n IH].
  - simpl. split; [intros j k; by rewrite lookup_empty|].
    repeat split; try lia. intros t Ht. lia.
  - rewrite seq_S, foldl_app. simpl. destruct IH as [IH1 IH2]; [lia|].
    unfold outer_step at 1 3.
    pose proof (inner_loop_inv alo ahi blo bhi (alo + n) _ _ ∅ _ IH1
      ltac:(lia) ltac:(lia) (b2j_get_Forall (alo + n))
      ltac:(intros j k; by rewrite lookup_empty) IH2) as [H1 H2].
    split; [|done]. intros j k Hjk. exists (alo + n). split; [lia|].
    by apply H1.
Qed.

Lemma main_loop_ok alo ahi blo bhi :
  alo ≤ ahi → blo ≤ bhi →
  match_ok a b alo ahi blo bhi (main_loop a b alo ahi blo bhi).2.
Proof. intros. apply rows_inv; lia. Qed.

Lemma same_elem_true junk i j :
  same_elem a b junk i j = true → ∃ x, a !! i = Some x ∧ b !! j = Some x.
Proof.
  unfold same_elem. destruct (a !! i) as [x|], (b !! j) as [y|]; try done.
  intros [_ ->%bool_decide_eq_true]%andb_prop. eauto.
Qed.

Lemma extend_back_ok junk alo ahi blo bhi i j k :
  match_ok a b alo ahi blo bhi (i, j, k) →
  match_ok a b alo ahi blo bhi (extend_back a b junk alo blo i j k).
Proof.
  revert j k. induction i as [|i IH]; intros [|j] k H; simpl; try done.
  repeat (destruct (decide _); [|done]).
  destruct (same_elem a b junk i j) eqn:E; [|done].
  apply same_elem_true in E as (x & Ha & Hb).
  destruct H as (? & ? & ? & ? & Hrun).
  apply IH. repeat split; try lia. by eapply same_run_cons.
Qed.

Lemma extend_fwd_loop_ok junk alo ahi blo bhi room i j k :
  match_ok a b alo ahi blo bhi (i, j, k) → i + k + room ≤ ahi →
  match_ok a b alo ahi blo bhi (extend_fwd_loop a b junk bhi room i j k).
Proof.
  revert k. induction room as [|room IH]; intros k H Hroom; simpl; [done|].
  destruct (decide _); [|done].
  destruct (same_elem a b junk (i + k) (j + k)) eqn:E; [|done].
  apply same_elem_true in E as (x & Ha & Hb).
  destruct H as (? & ? & ? & ? & Hrun).
  apply IH; [|lia]. repeat split; try lia. by eapply same_run_snoc.
Qed.

Lemma extend_ok junk alo ahi blo bhi m :
  match_ok a b alo ahi blo bhi m →
  match_ok a b alo ahi blo bhi (extend a b junk alo ahi blo bhi m).
Proof.
  destruct m as [[i j] k]. intros H. unfold extend.
  pose proof (extend_back_ok junk _ _ _ _ _ _ _ H) as H'.
  destruct (extend_back a b junk alo blo i j k) as [[i' j'] k'].
  unfold extend_fwd. apply extend_fwd_loop_ok; [done|].
  destruct H' as (? & ? & _). lia.
Qed.

(** The postcondition stated in the docstring of [find_longest_match]:
    [alo <= i <= i+k <= ahi], [blo <= j <= j+k <= bhi] and
    [a[i:i+k] == b[j:j+k]]. *)
Lemma find_longest_match_ok alo ahi blo bhi :
  alo ≤ ahi → blo ≤ bhi →
  match_ok a b alo ahi blo bhi (find_longest_match a b alo ahi blo bhi).
Proof.
  intros. unfold find_longest_match.
  by apply extend_ok, extend_ok, main_loop_ok.
Qed.
End flm_facts.

(** ** get_matching_blocks: an increasing chain of matching blocks *)

Section blocks_facts.
Variables a b : list string.
Import difflib.

Lemma chain_end_app i0 j0 c1 c2 :
  chain_end i0 j0 (c1 ++ c2) =
  chain_end (chain_end i0 j0 c1).1 (chain_end i0 j0 c1).2 c2.
Proof.
  revert i0 j0. induction c1 as [|[[i j] k] c1 IH]; intros i0 j0; simpl;
    [done|apply IH].
Qed.

Lemma chain_from_app i0 j0 c1 c2 :
  chain_from a b i0 j0 (c1 ++ c2) ↔
  chain_from a b i0 j0 c1 ∧
  chain_from a b (chain_end i0 j0 c1).1 (chain_end i0 j0 c1).2 c2.
Proof.
  revert i0 j0. induction c1 as [|[[i j] k] c1 IH]; intros i0 j0; simpl;
    [tauto|]. rewrite IH. tauto.
Qed.




(** Gluing: a chain in the window left of a block, the block, and a
    chain in the window right of it. *)
Lemma chain_in_glue alo ahi blo bhi i j k cl cr :
  match_ok a b alo ahi blo bhi (i, j, k) → 0 < k →
  chain_in a b alo i blo j cl → chain_in a b (i + k) ahi (j + k) bhi cr →
  chain_in a b alo ahi blo bhi (cl ++ (i, j, k) :: cr).
Proof.
  intros (? & ? & ? & ? & Hrun) Hk (Hl & Hl1 & Hl2) (Hr & Hr1 & Hr2).
  split.
  - apply chain_from_app. split; [done|]. simpl. repeat split; done.
  - by rewrite chain_end_app.
Qed.


Lemma window_skipped alo ahi blo bhi :
  alo ≤ ahi → blo ≤ bhi → window_done a b alo ahi blo bhi (λ q, q).
Proof.
  intros. exists [], [], 0. repeat split; try done; try lia.
  intros queue acc fuel _. by rewrite app_nil_r, Nat.sub_0_r.
Qed.

Lemma matching_loop_window n :
  ∀ alo ahi blo bhi,
  ahi - alo < n → alo ≤ ahi → blo ≤ bhi →
  window_done a b alo ahi blo bhi (cons (alo, ahi, blo, bhi)).
Proof.
  induction n as [|n IH]; intros alo ahi blo bhi Hn Ha Hb; [lia|].
  pose proof (find_longest_match_ok a b alo ahi blo bhi Ha Hb) as Hm.
  destruct (find_longest_match a b alo ahi blo bhi) as [[i j] k] eqn:Hflm.
  destruct (decide (k ≠ 0)) as [Hk|Hk]; cycle 1.
  { exists [], [], 1. repeat split; try done; try lia.
    intros queue acc [|fuel] Hf; [lia|]. simpl. rewrite Hflm.
    rewrite decide_False by done. by rewrite app_nil_r, Nat.sub_0_r. }
  pose proof Hm as (Hi & Hik & Hj & Hjk & Hrun).
  assert (window_done a b alo i blo j (λ q,
    if decide (alo < i ∧ blo < j) then (alo, i, blo, j) :: q else q))
    as (bll & cl & costl & Hcl & Hpl & Hchl & Hl).
  { destruct (decide (alo < i ∧ blo < j));
      [apply IH; lia|by apply window_skipped]. }
  assert (window_done a b (i + k) ahi (j + k) bhi (λ q,
    if decide (i + k < ahi ∧ j + k < bhi)
    then (i + k, ahi, j + k, bhi) :: q else q))
    as (blr & cr & costr & Hcr & Hpr & Hchr & Hr).
  { destruct (decide (i + k < ahi ∧ j + k < bhi));
      [apply IH; lia|apply window_skipped; lia]. }
  exists ((i, j, k) :: blr ++ bll), (cl ++ (i, j, k) :: cr),
    (1 + costr + costl).
  split; [lia|]. split.
  { rewrite Hpl, Hpr. by rewrite <- Permutation_middle, (comm (++)). }
  split; [apply chain_in_glue; [done|lia|done..]|].
  intros queue acc [|fuel] Hf; [lia|]. simpl. rewrite Hflm.
  rewrite decide_True by done. rewrite Hr by lia. rewrite Hl by lia.
  rewrite <- !(assoc (++)). simpl. f_equal. lia.
Qed.

(** [get_matching_blocks] never runs out of budget, and before sorting
    its blocks are a permutation of a chain over the two sequences. *)
Lemma matching_loop_total :
  ∃ bl c,
    matching_loop a b (2 * length a + 1) [(0, length a, 0, length b)] [] =
      Some bl ∧
    bl ≡ₚ c ∧ chain_in a b 0 (length a) 0 (length b) c.
Proof.
  destruct (matching_loop_window (S (length a)) 0 (length a) 0 (length b))
    as (bl & c & cost & Hc & Hp & Hch & H); [lia..|].
  exists bl, c. split; [|done]. rewrite H by lia.
  by destruct (2 * length a + 1 - cost).
Qed.

(** *** Sorting *)

#[local] Instance match_le_trans : Transitive match_le.
Proof. intros [[??]?] [[??]?] [[??]?]. unfold match_le. lia. Qed.

#[local] Instance match_le_antisym : AntiSymm (=) match_le.
Proof.
  intros [[i1 j1] k1] [[i2 j2] k2]. unfold match_le. intros H1 H2.
  assert (i1 = i2 ∧ j1 = j2 ∧ k1 = k2) as (-> & -> & ->) by lia. done.
Qed.

#[local] Instance match_le_total : Total match_le.
Proof. intros [[??]?] [[??]?]. unfold match_le. lia. Qed.

Lemma chain_from_sorted i0 j0 c : chain_from a b i0 j0 c → Sorted match_le c.
Proof.
  revert i0 j0. induction c as [|[[i j] k] c IH]; intros i0 j0; simpl;
    [constructor|].
  intros (_ & _ & Hk & _ & Hc). constructor; [by eapply IH|].
  destruct c as [|[[i' j'] k'] c]; constructor.
  destruct Hc as (? & _). unfold match_le. lia.
Qed.

(** Sorting a shuffled chain gives the chain back. *)
Lemma sort_blocks_chain i0 j0 bl c :
  bl ≡ₚ c → chain_from a b i0 j0 c → sort_blocks bl = c.
Proof.
  intros Hp Hc. apply (Sorted_unique match_le).
  - apply Sorted_merge_sort, _.
  - by eapply chain_from_sorted.
  - unfold sort_blocks. by rewrite merge_sort_Permutation.
Qed.

(** *** Collapsing adjacent blocks *)

Lemma chain_merge i0 j0 i1 j1 k1 k2 c :
  k1 ≠ 0 →
  chain_from a b i0 j0 ((i1, j1, k1) :: (i1 + k1, j1 + k1, k2) :: c) →
  chain_from a b i0 j0 ((i1, j1, k1 + k2) :: c) ∧
  chain_end i0 j0 ((i1, j1, k1) :: (i1 + k1, j1 + k1, k2) :: c) =
  chain_end i0 j0 ((i1, j1, k1 + k2) :: c).
Proof.
  simpl. intros Hk1 (? & ? & ? & Hr1 & _ & _ & ? & Hr2 & Hc).
  rewrite !(assoc Nat.add). split; [|done]. repeat split; try done; try lia.
  intros t Ht. destruct (decide (t < k1)) as [|Hge]; [by apply Hr1|].
  destruct (Hr2 (t - k1)) as (x & Ha & Hb); [lia|]. exists x.
  by replace (i1 + t) with (i1 + k1 + (t - k1)) by lia;
     replace (j1 + t) with (j1 + k1 + (t - k1)) by lia.
Qed.

Lemma collapse_fold alo ahi blo bhi rest :
  ∀ st : Match * list Match,
  chain_in a b alo ahi blo bhi (st.2 ++ pending st.1 ++ rest) →
  let st' := foldl collapse_step st rest in
  chain_in a b alo ahi blo bhi (st'.2 ++ pending st'.1).
Proof.
  induction rest as [|[[i2 j2] k2] rest IH]; intros [[[i1 j1] k1] na];
    simpl; [by rewrite app_nil_r|].
  intros H. apply IH. unfold pending in *. simpl in *.
  assert (0 < k2) as Hk2.
  { destruct H as [H _]. apply chain_from_app in H as [_ H].
    destruct (decide (k1 ≠ 0)); simpl in H; lia. }
  destruct (decide (i1 + k1 = i2 ∧ j1 + k1 = j2)) as [[<- <-]|Hna]; simpl.
  - rewrite (decide_True (P := k1 + k2 ≠ 0)) by lia.
    destruct (decide (k1 ≠ 0)) as [Hk1|Hk1].
    + destruct H as (H & He1 & He2). rewrite chain_end_app in He1, He2.
      apply chain_from_app in H as [Hna H].
      apply chain_merge in H as [H He]; [|done]. simpl in He1, He2, He.
      split; [by apply chain_from_app|]. rewrite chain_end_app. simpl.
      by rewrite <- He.
    + assert (k1 = 0) as -> by lia. by rewrite !Nat.add_0_r in *.
  - rewrite (decide_True (P := k2 ≠ 0)) by lia.
    destruct (decide (k1 ≠ 0)); simpl in *.
    + by rewrite <- (assoc (++)).
    + done.
Qed.

Lemma collapse_chain c :
  chain_in a b 0 (length a) 0 (length b) c →
  ∃ c', collapse a b c = c' ++ [(length a, length b, 0)] ∧
        chain_in a b 0 (length a) 0 (length b) c'.
Proof.
  intros H. unfold collapse.
  pose proof (collapse_fold 0 (length a) 0 (length b) c ((0, 0, 0), []) H)
    as H'. simpl in H'.
  destruct (foldl collapse_step _ c) as [[[i1 j1] k1] na].
  exists (na ++ pending (i1, j1, k1)). split; [|done].
  unfold pending. simpl. destruct (decide (k1 ≠ 0)); [done|].
  by rewrite app_nil_r.
Qed.

(** [get_matching_blocks] returns, for every pair of sequences, a chain
    of matching blocks followed by the sentinel [(la, lb, 0)]. *)
Lemma get_matching_blocks_total :
  ∃ c, get_matching_blocks a b = Some (c ++ [(length a, length b, 0)]) ∧
       chain_in a b 0 (length a) 0 (length b) c.
Proof.
  destruct matching_loop_total as (bl & c & Hl & Hp & Hc).
  destruct (collapse_chain c Hc) as (c' & Hc1 & Hc2).
  exists c'. split; [|done]. unfold get_matching_blocks. rewrite Hl. simpl.
  destruct Hc as [Hc _]. by rewrite (sort_blocks_chain _ _ _ _ Hp Hc), Hc1.
Qed.
End blocks_facts.

(** ** get_opcodes: the opcodes tile both sequences *)

Section opcode_facts.
Variables a b : list string.
Import difflib.

Lemma opcodes_fold blocks i j answer :
  (foldl opcode_step (i, j, answer) blocks).2 =
  answer ++ ops_rec i j blocks.
Proof.
  revert i j answer.
  induction blocks as [|[[ai bj] size] blocks IH]; intros i j answer; simpl.
  - by rewrite app_nil_r.
  - rewrite IH. unfold nonequal_op.
    repeat destruct (decide _); by rewrite <- ?(assoc (++)).
Qed.

Lemma ops_ok_le i j ops : ops_ok a b i j ops → i ≤ length a ∧ j ≤ length b.
Proof.
  revert i j. induction ops as [|[t i1 i2 j1 j2] ops IH]; intros i j; simpl.
  - lia.
  - intros (-> & -> & Hs & _ & H). apply IH in H.
    unfold op_shape in Hs. destruct t; simpl in *; lia.
Qed.

Lemma ops_rec_ok c i j :
  chain_from a b i j c →
  (chain_end i j c).1 ≤ length a → (chain_end i j c).2 ≤ length b →
  ops_ok a b i j (ops_rec i j (c ++ [(length a, length b, 0)])).
Proof.
  revert i j. induction c as [|[[ai bj] k] c IH]; intros i j; simpl.
  - intros _ Hi Hj. unfold nonequal_op.
    repeat destruct (decide _); simpl; unfold op_shape; simpl;
      repeat split; try done; lia.
  - intros (Hi & Hj & Hk & Hrun & Hc) He1 He2.
    rewrite decide_True by lia.
    specialize (IH _ _ Hc He1 He2).
    assert (ops_ok a b ai bj (Opcode op_equal ai (ai + k) bj (bj + k) ::
      ops_rec (ai + k) (bj + k) (c ++ [(length a, length b, 0)]))) as Heq.
    { simpl. unfold op_shape. simpl. repeat split; try done; try lia.
      by replace (ai + k - ai) with k by lia. }
    unfold nonequal_op.
    repeat destruct (decide _); simpl app.
    1-3: split_and!; simpl; unfold op_shape; simpl; try done; try lia.
    by replace i with ai by lia; replace j with bj by lia.
Qed.

(** [get_opcodes] returns for every pair of sequences, and its opcodes
    tile [a] and [b] in step. *)
Lemma get_opcodes_total :
  ∃ ops, get_opcodes a b = Some ops ∧ ops_ok a b 0 0 ops.
Proof.
  destruct (get_matching_blocks_total a b) as (c & Hc & Hch & He1 & He2).
  unfold get_opcodes. rewrite Hc. simpl. eexists. split; [done|].
  unfold opcodes_of. rewrite opcodes_fold. simpl. by apply ops_rec_ok.
Qed.
End opcode_facts.

(** ** The walk over the opcodes *)

Lemma length_slice {A} (l : list A) (i1 i2 : nat) :
  i2 ≤ length l → length (slice l i1 i2) = i2 - i1.
Proof. intros H. unfold slice. rewrite length_take, length_drop. lia. Qed.

Section walk_facts.
Variables orig cor : list string.
Import difflib.

Lemma ops_ok_no_adjacent ops : ∀ i j,
  ops_ok orig cor i j ops → adjacent_delete_insert ops = false.
Proof.
  induction ops as [|o1 ops IH]; intros i j; [done|].
  intros (_ & _ & _ & Hnext & Hrest). destruct ops as [|o2 ops]; [done|].
  change (bool_decide (op_tag o1 = op_delete ∧ op_tag o2 = op_insert)
          || adjacent_delete_insert (o2 :: ops) = false).
  rewrite (IH _ _ Hrest), orb_false_r. apply bool_decide_eq_false.
  intros [H1 H2]. simpl in Hnext. rewrite Hnext in H2; [done|].
  by rewrite H1.
Qed.

Lemma adjacent_delete_insert_app l1 l2 :
  adjacent_delete_insert (l1 ++ l2) = false →
  adjacent_delete_insert l1 = false.
Proof.
  induction l1 as [|o1 l1 IH]; [done|]. destruct l1 as [|o2 l1]; [done|].
  change (bool_decide (op_tag o1 = op_delete ∧ op_tag o2 = op_insert)
          || adjacent_delete_insert ((o2 :: l1) ++ l2) = false →
          bool_decide (op_tag o1 = op_delete ∧ op_tag o2 = op_insert)
          || adjacent_delete_insert (o2 :: l1) = false).
  intros [-> H]%orb_false_elim. by rewrite IH.
Qed.

Lemma walk_delete_step i1 i2 j1 j2 rest tags gaps :
  match rest with
  | [] => True
  | o2 :: _ => op_tag o2 ≠ op_insert
  end →
  walk orig cor (Opcode op_delete i1 i2 j1 j2 :: rest) tags gaps =
  walk orig cor rest (tags ++ replicate (i2 - i1) DELETE) gaps.
Proof.
  destruct rest as [|[t' i1' i2' j1' j2'] rest]; [done|].
  simpl. intros H. by rewrite decide_False by (intros [? _]; done).
Qed.

(** Without such a pair the look-ahead of the [delete] branch fails
    every time, and the walk is the walk without fusion. *)
Lemma walk_nofusion_eq ops : ∀ tags gaps,
  adjacent_delete_insert ops = false →
  walk orig cor ops tags gaps = walk_nofusion orig cor ops tags gaps.
Proof.
  induction ops as [|[t i1 i2 j1 j2] ops IH]; intros tags gaps; [done|].
  intros Hadj.
  assert (adjacent_delete_insert ops = false) as Hrest.
  { destruct ops; [done|]. by apply orb_false_elim in Hadj as [_ ?]. }
  destruct t.
  - simpl. by rewrite IH.
  - rewrite walk_delete_step, IH; [done..|].
    destruct ops as [|o2 ops']; [done|].
    apply orb_false_elim in Hadj as [Hadj _].
    apply bool_decide_eq_false in Hadj. simpl in Hadj. tauto.
  - simpl. repeat case_match; try done; by rewrite IH.
  - simpl. repeat case_match; try done; by rewrite IH.
Qed.

Lemma set_gap_ok gaps idx v :
  idx < length gaps → set_gap gaps idx v = Ok (<[idx := v]> gaps).
Proof. intros. unfold set_gap. by rewrite decide_True. Qed.

Lemma slice_nonempty {A} (l : list A) i1 i2 :
  i1 < i2 → i2 ≤ length l → slice l i1 i2 ≠ [].
Proof.
  intros H1 H2 E. apply (f_equal length) in E.
  rewrite length_slice in E by done. simpl in E. lia.
Qed.

(** The walk without look-ahead goes through a list of opcodes piece by
    piece. *)
Lemma walk_nofusion_app l1 l2 : ∀ tags gaps,
  walk_nofusion orig cor (l1 ++ l2) tags gaps =
  match walk_nofusion orig cor l1 tags gaps with
  | Ok (tags', gaps') => walk_nofusion orig cor l2 tags' gaps'
  | Raises e => Raises e
  | Diverges => Diverges
  end.
Proof.
  induction l1 as [|[t i1 i2 j1 j2] l1 IH]; intros tags gaps; [done|].
  destruct t; simpl; try apply IH.
  - destruct (decide _); [apply IH|]. destruct (set_gap _ _ _); auto.
  - destruct (set_gap _ _ _); auto.
Qed.

(** The walk succeeds on every leading part [pre] of the opcodes of
    [get_opcodes]: the number of tags emitted is the position reached in
    [orig], every write into the gap list is in range and stores a
    non-empty [INSERT_] list, and no write touches a gap before the
    tags already emitted. *)
Lemma walk_nofusion_seg pre : ∀ rest i j tags gaps,
  ops_ok orig cor i j (pre ++ rest) →
  length tags = i → length gaps = length orig + 1 →
  ∃ tags' gaps' i' j',
    walk_nofusion orig cor pre tags gaps = Ok (tags', gaps') ∧
    length tags' = i' ∧ length gaps' = length orig + 1 ∧
    ops_ok orig cor i' j' rest ∧
    (Forall gap_entry gaps → Forall gap_entry gaps') ∧
    length tags ≤ length tags' ∧
    (∀ idx, idx < length tags → gaps' !! idx = gaps !! idx).
Proof.
  induction pre as [|[t i1 i2 j1 j2] pre IH]; intros rest i j tags gaps.
  { simpl. intros Hok Ht Hg. exists tags, gaps, i, j. by split_and!. }
  intros (Hi & Hj & Hs & _ & Hrest) Ht Hg. simpl in Hi, Hj, Hrest. subst i1 j1.
  assert (i2 ≤ length orig ∧ j2 ≤ length cor) as [Hi2 Hj2]
    by by eapply ops_ok_le.
  unfold op_shape in Hs. simpl in Hs |- *.
  assert (∀ tags1 gaps1,
    length tags1 = i2 → length gaps1 = length orig + 1 →
    length tags ≤ length tags1 →
    (Forall gap_entry gaps → Forall gap_entry gaps1) →
    (∀ idx, idx < length tags → gaps1 !! idx = gaps !! idx) →
    ∃ tags' gaps' i' j',
      walk_nofusion orig cor pre tags1 gaps1 = Ok (tags', gaps') ∧
      length tags' = i' ∧ length gaps' = length orig + 1 ∧
      ops_ok orig cor i' j' rest ∧
      (Forall gap_entry gaps → Forall gap_entry gaps') ∧
      length tags ≤ length tags' ∧
      (∀ idx, idx < length tags → gaps' !! idx = gaps !! idx)) as Hnext.
  { intros tags1 gaps1 Ht1 Hg1 Hle Hent Hkeep.
    destruct (IH rest i2 j2 tags1 gaps1 Hrest Ht1 Hg1)
      as (tags' & gaps' & i' & j' & Hw & ? & ? & ? & Hent' & Hle' & Hkeep').
    exists tags', gaps', i', j'. split_and!; try done.
    - auto.
    - lia.
    - intros idx Hidx. rewrite Hkeep' by lia. by apply Hkeep. }
  assert (∀ n v, i2 = i + n → gap_entry v →
    ∃ tags' gaps' i' j',
      match set_gap gaps (length (tags ++ replicate n DELETE)) v with
      | Ok gaps0 =>
        walk_nofusion orig cor pre (tags ++ replicate n DELETE) gaps0
      | Raises e => Raises e
      | Diverges => Diverges
      end = Ok (tags', gaps') ∧
      length tags' = i' ∧ length gaps' = length orig + 1 ∧
      ops_ok orig cor i' j' rest ∧
      (Forall gap_entry gaps → Forall gap_entry gaps') ∧
      length tags ≤ length tags' ∧
      (∀ idx, idx < length tags → gaps' !! idx = gaps !! idx)) as Hwrite.
  { intros n v Hn Hv.
    assert (length (tags ++ replicate n DELETE) = i2) as Hlen
      by (rewrite length_app, length_replicate; lia).
    rewrite set_gap_ok by lia. apply Hnext.
    - done.
    - by rewrite length_insert.
    - rewrite length_app. lia.
    - intros Hall. by apply Forall_insert.
    - intros idx Hidx. apply list_lookup_insert_ne. lia. }
  destruct t.
  - apply Hnext; try done; rewrite length_app, length_replicate; lia.
  - apply Hnext; try done; rewrite length_app, length_replicate; lia.
  - destruct Hs as [Hs1 Hs2]. rewrite !length_slice by done.
    destruct (decide (i2 - i = j2 - j)).
    + apply Hnext; try done;
        rewrite length_app, length_fmap, length_slice by done; lia.
    + apply Hwrite; [lia|]. right. exists (slice cor j j2).
      split; [by apply slice_nonempty|done].
  - destruct Hs as [<- Hs2].
    specialize (Hwrite 0 (insert_entry (slice cor j j2))).
    simpl in Hwrite. rewrite app_nil_r in Hwrite.
    apply Hwrite; [lia|]. right. exists (slice cor j j2).
    split; [by apply slice_nonempty|done].
Qed.

Lemma walk_nofusion_ok ops : ∀ i j tags gaps,
  ops_ok orig cor i j ops →
  length tags = i → length gaps = length orig + 1 →
  ∃ tags' gaps',
    walk_nofusion orig cor ops tags gaps = Ok (tags', gaps') ∧
    length tags' = length orig ∧ length gaps' = length orig + 1 ∧
    (Forall gap_entry gaps → Forall gap_entry gaps') ∧
    (∀ idx, idx < length tags → gaps' !! idx = gaps !! idx).
Proof.
  intros i j tags gaps Hok Ht Hg.
  destruct (walk_nofusion_seg ops [] i j tags gaps)
    as (tags' & gaps' & i' & j' & Hw & Hi' & ? & [-> _] & ? & ? & ?);
    [by rewrite app_nil_r|done..|].
  exists tags', gaps'. by split_and!.
Qed.

(** [diff_to_tags] returns for every pair of token sequences: it is the
    walk without look-ahead over the opcodes, with one tag per original
    token and one gap entry per gap. *)
Lemma diff_to_tags_walk ops :
  get_opcodes orig cor = Some ops →
  ops_ok orig cor 0 0 ops →
  ∃ tags' gaps',
    walk_nofusion orig cor ops [] (replicate (length orig + 1) "KEEP_GAP") =
      Ok (tags', gaps') ∧
    diff_to_tags orig cor = Ok (mkTaggedExample orig tags' gaps') ∧
    length tags' = length orig ∧ length gaps' = length orig + 1 ∧
    Forall gap_entry gaps'.
Proof.
  intros Hops Hok. unfold diff_to_tags, tags_of_opcodes. rewrite Hops.
  rewrite walk_nofusion_eq by by eapply ops_ok_no_adjacent.
  destruct (walk_nofusion_ok ops 0 0 []
    (replicate (length orig + 1) "KEEP_GAP") Hok)
    as (tags' & gaps' & Hw & Ht & Hg & Hent & _);
    [done|by rewrite length_replicate|].
  exists tags', gaps'. rewrite Hw. rewrite decide_True by done.
  split_and!; try done. apply Hent, Forall_replicate. by left.
Qed.

Lemma diff_to_tags_total :
  ∃ ex, diff_to_tags orig cor = Ok ex ∧
        tokens ex = orig ∧
        length (tags ex) = length orig ∧
        length (gap_tags ex) = length orig + 1 ∧
        Forall gap_entry (gap_tags ex).
Proof.
  destruct (get_opcodes_total orig cor) as (ops & Hops & Hok).
  destruct (diff_to_tags_walk ops Hops Hok)
    as (tags' & gaps' & _ & -> & ? & ? & ?).
  eexists. by split_and!.
Qed.
End walk_facts.

(** ** Reconstruction *)

Lemma prefix_split (p s : string) :
  String.prefix p s = true → ∃ w, s = p +:+ w.
Proof.
  revert s. induction p as [|c p IH]; intros s.
  - intros _. by exists s.
  - destruct s as [|c' s]; simpl; [done|].
    destruct (Ascii.ascii_dec c c'); [|done].
    intros [w ->]%IH. exists w. by subst.
Qed.




Lemma zip_take_min {A B} (l : list A) (k : list B) :
  zip l k = zip (take (length l `min` length k) l)
                (take (length l `min` length k) k).
Proof.
  revert k. induction l as [|x l IH]; intros [|y k]; simpl; try done.
  by rewrite <- IH.
Qed.



(** C10: reconstruction does not check that the two sequences have the
    same length.  When they differ, only the first
    [min(len(tokens), len(tags))] pairs are processed and a string is
    returned all the same; with fewer tags than tokens the trailing
    tokens are dropped. *)
Theorem apply_tags_unequal_lengths (tokens tags : list string) :
  length tokens ≠ length tags →
  let m := length tokens `min` length tags in
  apply_tags tokens tags = apply_tags (take m tokens) (take m tags) ∧
  _apply_tags tokens tags = _apply_tags (take m tokens) (take m tags) ∧
  (length tags < length tokens →
   apply_tags tokens tags = apply_tags (take (length tags) tokens) tags ∧
   _apply_tags tokens tags = _apply_tags (take (length tags) tokens) tags).
Proof.
  intros _ m. subst m. unfold apply_tags, _apply_tags.
  rewrite <- (zip_take_min tokens tags). split; [done|]. split; [done|].
  intros Hlt. rewrite (zip_take_min tokens tags).
  replace (length tokens `min` length tags) with (length tags) by lia.
  by rewrite (take_ge tags).
Qed.

Lemma apply_tags_unequal_lengths_witness :
  length ["a"; "b"; "c"] ≠ length ["KEEP"] ∧
  apply_tags ["a"; "b"; "c"] ["KEEP"] = "a" ∧
  _apply_tags ["a"; "b"; "c"] ["KEEP"] = "a".
Proof.
  split; [simpl; lia|].
  destruct (apply_tags_unequal_lengths ["a"; "b"; "c"] ["KEEP"])
    as (H1 & H2 & _); [simpl; lia|].
  split; [exact H1|exact H2].
Defined.

(** C1: for every pair of token sequences, [diff_to_tags] returns (its
    assertion does not fire, no index is out of range, the matcher
    terminates) and the result has one tag per original token. *)
Theorem diff_to_tags_one_tag_per_token (orig cor : list string) :
  ∃ ex, diff_to_tags orig cor = Ok ex ∧ length (tags ex) = length orig.
Proof.
  destruct (diff_to_tags_total orig cor) as (ex & H & _ & Hlen & _). eauto.
Qed.

(** C9: the opcodes of the sequence matcher never hold a [delete]
    immediately followed by an [insert], so the fusion branch of
    [diff_to_tags] is never taken: on every input [diff_to_tags] computes
    what its variant without that branch computes. *)
Theorem fusion_branch_unreachable (orig cor : list string) :
  (∃ ops, difflib.get_opcodes orig cor = Some ops ∧
          adjacent_delete_insert ops = false) ∧
  diff_to_tags orig cor = diff_to_tags_nofusion orig cor.
Proof.
  destruct (get_opcodes_total orig cor) as (ops & Hops & Hok).
  pose proof (ops_ok_no_adjacent _ _ _ _ _ Hok) as Hadj.
  split; [eauto|].
  unfold diff_to_tags, diff_to_tags_nofusion, tags_of_opcodes. rewrite Hops.
  by rewrite walk_nofusion_eq.
Qed.

(** ** The demo sentence of tags.py *)

Lemma demo_opcodes :
  difflib.get_opcodes demo_orig demo_cor = Some
    [difflib.Opcode difflib.op_equal 0 1 0 1;
     difflib.Opcode difflib.op_replace 1 3 1 2;
     difflib.Opcode difflib.op_equal 3 4 2 3;
     difflib.Opcode difflib.op_replace 4 5 3 4;
     difflib.Opcode difflib.op_equal 5 7 4 6].
Proof. vm_compute. reflexivity. Qed.

(** The worked examples of the specification. *)
Example deletion_example :
  diff_to_tags ["a"; "b"; "c"] ["a"; "c"] =
    Ok (mkTaggedExample ["a"; "b"; "c"] ["KEEP"; "DELETE"; "KEEP"]
          ["KEEP_GAP"; "KEEP_GAP"; "KEEP_GAP"; "KEEP_GAP"]) ∧
  apply_tags ["a"; "b"; "c"] ["KEEP"; "DELETE"; "KEEP"] = "a c".
Proof. split; vm_compute; reflexivity. Qed.

Example single_replace_example :
  diff_to_tags ["fuil"; "stack"] ["full"; "stack"] =
    Ok (mkTaggedExample ["fuil"; "stack"] ["REPLACE_full"; "KEEP"]
          ["KEEP_GAP"; "KEEP_GAP"; "KEEP_GAP"]) ∧
  apply_tags ["fuil"; "stack"] ["REPLACE_full"; "KEEP"] = "full stack".
Proof. split; vm_compute; reflexivity. Qed.

Lemma demo_diff :
  diff_to_tags demo_orig demo_cor = Ok
    {| tokens := demo_orig;
       tags := ["KEEP"; "DELETE"; "DELETE"; "KEEP"; "REPLACE_building";
                "KEEP"; "KEEP"];
       gap_tags := ["KEEP_GAP"; "KEEP_GAP"; "KEEP_GAP"; "INSERT_full-stack";
                    "KEEP_GAP"; "KEEP_GAP"; "KEEP_GAP"; "KEEP_GAP"] |}.
Proof. vm_compute. reflexivity. Qed.

(** C2, as the code has it: the two tokens ["fuil"; "stack"] against the
    single token ["full-stack"] form a [replace] opcode with spans of
    unequal length, so both tokens are tagged [DELETE] and
    [INSERT_full-stack] goes to gap 3; [REPLACE_building] is the tag of
    token 4; the tags rebuild ["a engineer building web apps"]. *)
Theorem demo_tags :
  ∃ ex, diff_to_tags demo_orig demo_cor = Ok ex ∧
    tags ex = ["KEEP"; "DELETE"; "DELETE"; "KEEP"; "REPLACE_building";
               "KEEP"; "KEEP"] ∧
    gap_tags ex !! 3 = Some "INSERT_full-stack" ∧
    tags ex !! 1 = Some DELETE ∧
    tags ex !! 4 = Some "REPLACE_building" ∧
    apply_tags demo_orig (tags ex) = "a engineer building web apps".
Proof. eexists. split; [apply demo_diff|]. by split_and!. Qed.

(** C2 as stated fails: the tags of the demo sentence have no
    [REPLACE_full-stack] at index 1 and no [REPLACE_building] at index 3,
    and they do not rebuild the corrected sentence. *)
Lemma demo_tags_not_as_claimed :
  ¬ ∃ ex, diff_to_tags demo_orig demo_cor = Ok ex ∧
          tags ex !! 1 = Some "REPLACE_full-stack" ∧
          tags ex !! 3 = Some "REPLACE_building" ∧
          apply_tags demo_orig (tags ex) =
            "a full-stack engineer building web apps".
Proof.
  intros (ex & Hex & H1 & _). rewrite demo_diff in Hex.
  injection Hex as <-. simpl in H1. discriminate H1.
Qed.

(** ** The tag vocabulary *)

#[local] Instance str_le_total : Total str_le.
Proof. intros s t. apply String.leb_total. Qed.

Lemma compare_not_Gt_trans (s : string) : ∀ t u,
  String.compare s t ≠ Gt → String.compare t u ≠ Gt →
  String.compare s u ≠ Gt.
Proof.
  induction s as [|c s IH]; intros [|d t] [|e u]; simpl; try done.
  unfold Ascii.compare.
  destruct (N.compare_spec (N_of_ascii c) (N_of_ascii d)),
           (N.compare_spec (N_of_ascii d) (N_of_ascii e)),
           (N.compare_spec (N_of_ascii c) (N_of_ascii e));
    try done; try lia. apply IH.
Qed.

#[local] Instance str_le_trans : Transitive str_le.
Proof.
  intros s t u. unfold str_le, String.leb. intros Hst Htu.
  pose proof (compare_not_Gt_trans s t u) as H.
  destruct (String.compare s t), (String.compare t u), (String.compare s u);
    try done; by destruct H.
Qed.

Lemma elem_of_tag_fold (examples : list TaggedExample) :
  ∀ (X : gset string) t,
  t ∈ foldl (λ tag_set ex, tag_set ∪ list_to_set (tags ex)) X examples ↔
  t ∈ X ∨ ∃ ex, ex ∈ examples ∧ t ∈ tags ex.
Proof.
  induction examples as [|e examples IH]; intros X t; simpl.
  - split; [by left|]. intros [?|(ex & H & _)]; [done|].
    by apply elem_of_nil in H.
  - rewrite IH, elem_of_union, elem_of_list_to_set. split.
    + intros [[?|?]|(ex & ? & ?)]; [by left|right..].
      * exists e. split; [left|done].
      * exists ex. split; [by right|done].
    + intros [?|(ex & [->|?]%elem_of_cons & ?)]; [by left; left|by left; right|].
      right. by exists ex.
Qed.

Lemma elem_of_tag_set_of examples t :
  t ∈ tag_set_of examples ↔
  t = KEEP ∨ t = DELETE ∨ ∃ ex, ex ∈ examples ∧ t ∈ tags ex.
Proof. unfold tag_set_of. rewrite elem_of_tag_fold. set_solver. Qed.

Lemma sorted_spec (X : gset string) :
  StronglySorted str_le (sorted X) ∧ NoDup (sorted X) ∧
  ∀ t, t ∈ sorted X ↔ t ∈ X.
Proof.
  unfold sorted. split; [apply StronglySorted_merge_sort; apply _|]. split.
  - rewrite merge_sort_Permutation. apply NoDup_elements.
  - intros t. by rewrite merge_sort_Permutation, elem_of_elements.
Qed.

Lemma index_map_snoc (l : list string) (x : string) :
  index_map (l ++ [x]) = <[x := length l]> (index_map l).
Proof. unfold index_map. by rewrite enumerate_snoc, foldl_app. Qed.

(** The ids are the positions in the tag list. *)
Lemma index_map_lookup (l : list string) : NoDup l →
  ∀ t i, index_map l !! t = Some i ↔ l !! i = Some t.
Proof.
  induction l as [|x l IH] using rev_ind; intros Hnd t i.
  - unfold index_map. simpl. by rewrite lookup_empty, lookup_nil.
  - apply NoDup_app in Hnd as (Hnd & Hx & _). rewrite index_map_snoc.
    destruct (decide (t = x)) as [->|Hne].
    + rewrite lookup_insert_eq. split.
      * intros [= <-]. by rewrite list_lookup_middle.
      * intros H. f_equal. destruct (decide (i < length l)) as [Hlt|Hge].
        -- rewrite lookup_app_l in H by done.
           apply list_elem_of_lookup_2 in H. exfalso. eapply Hx; [done|].
           by left.
        -- apply lookup_lt_Some in H. rewrite length_app in H. simpl in H.
           lia.
    + rewrite lookup_insert_ne by done. rewrite (IH Hnd). split.
      * intros H. by apply lookup_app_l_Some.
      * intros H. destruct (decide (i < length l)) as [Hlt|Hge].
        -- by rewrite lookup_app_l in H.
        -- rewrite lookup_app_r in H by lia.
           apply list_lookup_singleton_Some in H as [_ ?]. done.
Qed.

(** Only the tag sequences of the examples count. *)
Lemma tag_set_of_tags examples examples' :
  tags <$> examples' = tags <$> examples →
  tag_set_of examples' = tag_set_of examples.
Proof.
  intros H. unfold tag_set_of.
  rewrite <- !(foldl_fmap (λ (tag_set : gset string) tgs,
                            tag_set ∪ list_to_set tgs) _ _ tags).
  by rewrite H.
Qed.

Lemma tag_set_of_same_set examples examples' :
  (∀ ex, ex ∈ examples' ↔ ex ∈ examples) →
  tag_set_of examples' = tag_set_of examples.
Proof.
  intros H. apply set_eq. intros t. rewrite !elem_of_tag_set_of.
  naive_solver.
Qed.

(** C6: the vocabulary always holds [KEEP] and [DELETE]; its tags are
    exactly those two and the per-token tags of the examples, whatever
    their tokens and gap tags; the tag list is sorted and free of
    duplicates, and the id of a tag is its 0-based position in that
    list; building from a permuted example list, or from any list with
    the same examples, gives the same list and the same mapping. *)
Theorem build_tag_vocab_stable (examples : list TaggedExample) :
  let tag_list := (build_tag_vocab examples).1 in
  let tag2id := (build_tag_vocab examples).2 in
  (KEEP ∈ tag_list ∧ DELETE ∈ tag_list ∧
   is_Some (tag2id !! KEEP) ∧ is_Some (tag2id !! DELETE)) ∧
  (∀ t, t ∈ tag_list ↔
        t = KEEP ∨ t = DELETE ∨ ∃ ex, ex ∈ examples ∧ t ∈ tags ex) ∧
  (∀ examples', tags <$> examples' = tags <$> examples →
                build_tag_vocab examples' = build_tag_vocab examples) ∧
  StronglySorted str_le tag_list ∧ NoDup tag_list ∧
  (∀ t i, tag2id !! t = Some i ↔ tag_list !! i = Some t) ∧
  (∀ examples', examples' ≡ₚ examples →
                build_tag_vocab examples' = build_tag_vocab examples) ∧
  (∀ examples', (∀ ex, ex ∈ examples' ↔ ex ∈ examples) →
                build_tag_vocab examples' = build_tag_vocab examples).
Proof.
  simpl. destruct (sorted_spec (tag_set_of examples)) as (Hs & Hnd & Hin).
  assert (∀ t, t ∈ sorted (tag_set_of examples) ↔
    t = KEEP ∨ t = DELETE ∨ ∃ ex, ex ∈ examples ∧ t ∈ tags ex) as Hmem.
  { intros t. by rewrite Hin, elem_of_tag_set_of. }
  pose proof (index_map_lookup _ Hnd) as Hidx.
  assert (∀ t, t ∈ sorted (tag_set_of examples) →
               is_Some (index_map (sorted (tag_set_of examples)) !! t)) as Hsome.
  { intros t [i Hi]%list_elem_of_lookup_1. exists i. by apply Hidx. }
  assert (∀ examples', (∀ ex, ex ∈ examples' ↔ ex ∈ examples) →
    build_tag_vocab examples' = build_tag_vocab examples) as Hsame.
  { intros examples' H. unfold build_tag_vocab.
    by rewrite (tag_set_of_same_set _ _ H). }
  split_and!; try done.
  - apply Hmem. by left.
  - apply Hmem. right. by left.
  - apply Hsome, Hmem. by left.
  - apply Hsome, Hmem. right. by left.
  - intros examples' H. unfold build_tag_vocab.
    by rewrite (tag_set_of_tags _ _ H).
  - intros examples' Hp. apply Hsame. intros ex. by rewrite Hp.
Qed.

Lemma build_tag_vocab_stable_witness :
  build_tag_vocab
    [mkTaggedExample ["b"] ["REPLACE_c"] ["KEEP_GAP"; "INSERT_z"];
     mkTaggedExample ["a"] ["KEEP"] ["KEEP_GAP"; "KEEP_GAP"]] =
  build_tag_vocab
    [mkTaggedExample ["a"] ["KEEP"] ["KEEP_GAP"; "KEEP_GAP"];
     mkTaggedExample ["b"] ["REPLACE_c"] ["KEEP_GAP"; "INSERT_z"]].
Proof.
  destruct (build_tag_vocab_stable
    [mkTaggedExample ["a"] ["KEEP"] ["KEEP_GAP"; "KEEP_GAP"];
     mkTaggedExample ["b"] ["REPLACE_c"] ["KEEP_GAP"; "INSERT_z"]])
    as (_ & _ & _ & _ & _ & _ & Hperm & _).
  apply Hperm. apply perm_swap.
Defined.

(** ** Training labels *)

Section label_facts.
Variables (word_ids : list (option nat)) (tag_seq : list string).
Variables (tag2id : gmap string nat) (keep_id : nat).
Hypothesis HKEEP : tag2id !! KEEP = Some keep_id.

Lemma label_step_spec labels idx w_id :
  label_step word_ids tag_seq tag2id (Ok labels) (idx, w_id) =
  Ok (if decide (label_of word_ids tag_seq tag2id keep_id idx w_id = IGNORE)
      then labels
      else <[idx := label_of word_ids tag_seq tag2id keep_id idx w_id]> labels).
Proof.
  unfold label_step, label_of. destruct w_id as [w|]; [|done].
  destruct (decide (idx = 0 ∨ _)); [|done]. rewrite HKEEP.
  rewrite (decide_False
             (P := Z.of_nat (word_label tag_seq tag2id keep_id w) = IGNORE))
    by (unfold IGNORE; lia).
  do 3 f_equal.
  unfold word_label. destruct (decide (w < length tag_seq)) as [Hw|Hw].
  - apply lookup_lt_is_Some in Hw as [tag ->]. done.
  - rewrite lookup_ge_None_2 by lia. simpl. by rewrite HKEEP.
Qed.

Lemma labels_prefix n :
  n ≤ length word_ids →
  foldl (label_step word_ids tag_seq tag2id)
        (Ok (replicate (length word_ids) IGNORE))
        (take n (enumerate word_ids)) =
  Ok (imap (label_of word_ids tag_seq tag2id keep_id) (take n word_ids) ++
      replicate (length word_ids - n) IGNORE).
Proof.
  induction n as [|n IH]; intros Hn.
  - simpl. by rewrite Nat.sub_0_r.
  - destruct (lookup_lt_is_Some_2 word_ids n) as [w_id Hw]; [lia|].
    assert (enumerate word_ids !! n = Some (n, w_id)) as He.
    { unfold enumerate. by rewrite list_lookup_imap, Hw. }
    rewrite (take_S_r _ _ _ He), (take_S_r _ _ _ Hw), foldl_app, IH by lia.
    cbn [foldl]. rewrite label_step_spec, imap_app. cbn [imap].
    rewrite length_take, Nat.min_l, Nat.add_0_r by lia.
    replace (length word_ids - n) with (S (length word_ids - S n)) by lia.
    simpl. rewrite <- (assoc (++)). simpl. f_equal.
    assert (length (imap (label_of word_ids tag_seq tag2id keep_id)
                         (take n word_ids)) = n) as Hlen
      by (rewrite length_imap, length_take; lia).
    destruct (decide (label_of word_ids tag_seq tag2id keep_id n w_id = IGNORE))
      as [->|]; [done|].
    rewrite insert_app_r_alt by lia. by rewrite Hlen, Nat.sub_diag.
Qed.

Lemma assign_labels_spec :
  assign_labels word_ids tag_seq tag2id =
  Ok (imap (label_of word_ids tag_seq tag2id keep_id) word_ids).
Proof.
  unfold assign_labels.
  rewrite <- (take_ge (enumerate word_ids) (length word_ids))
    by (unfold enumerate; by rewrite length_imap).
  rewrite labels_prefix by done.
  by rewrite Nat.sub_diag, app_nil_r, take_ge.
Qed.
End label_facts.

(** C7: with a vocabulary that holds [KEEP], the label loop returns one
    label per position.  A position whose word id is null, or whose word
    id equals that of the position before it, gets the ignore sentinel
    [-100]; a first sub-token position gets the id of its word's tag, and
    only such positions get a label other than [-100].  Hence in a run of
    [k] sub-tokens of one word the first position alone is labelled.  The
    id of [KEEP] stands in when the word index is past the end of the tag
    sequence or the tag has no id. *)
Theorem label_assignment (word_ids : list (option nat))
    (tag_seq : list string) (tag2id : gmap string nat) (keep_id : nat) :
  tag2id !! KEEP = Some keep_id →
  ∃ labels,
    assign_labels word_ids tag_seq tag2id = Ok labels ∧
    length labels = length word_ids ∧
    (∀ idx, word_ids !! idx = Some None → labels !! idx = Some IGNORE) ∧
    (∀ idx w, word_ids !! (S idx) = Some (Some w) →
              word_ids !! idx = Some (Some w) →
              labels !! (S idx) = Some IGNORE) ∧
    (∀ idx w, first_subtoken word_ids idx w →
              labels !! idx =
                Some (Z.of_nat (word_label tag_seq tag2id keep_id w))) ∧
    (∀ idx l, labels !! idx = Some l → l ≠ IGNORE →
              ∃ w, first_subtoken word_ids idx w) ∧
    (∀ pre w k post,
       word_ids = pre ++ replicate (S k) (Some w) ++ post →
       last pre ≠ Some (Some w) →
       labels !! length pre =
         Some (Z.of_nat (word_label tag_seq tag2id keep_id w)) ∧
       Z.of_nat (word_label tag_seq tag2id keep_id w) ≠ IGNORE ∧
       ∀ t, 1 ≤ t ≤ k → labels !! (length pre + t) = Some IGNORE) ∧
    (∀ w, length tag_seq ≤ w →
          word_label tag_seq tag2id keep_id w = keep_id) ∧
    (∀ w tag, tag_seq !! w = Some tag → tag2id !! tag = None →
              word_label tag_seq tag2id keep_id w = keep_id) ∧
    (∀ w tag id, tag_seq !! w = Some tag → tag2id !! tag = Some id →
                 word_label tag_seq tag2id keep_id w = id).
Proof.
  intros HKEEP.
  exists (imap (label_of word_ids tag_seq tag2id keep_id) word_ids).
  assert (∀ idx w, first_subtoken word_ids idx w →
    imap (label_of word_ids tag_seq tag2id keep_id) word_ids !! idx =
    Some (Z.of_nat (word_label tag_seq tag2id keep_id w))) as Hfirst.
  { intros idx w [Hw Hf]. rewrite list_lookup_imap, Hw. simpl.
    by rewrite decide_True. }
  assert (∀ idx w, word_ids !! (S idx) = Some (Some w) →
    word_ids !! idx = Some (Some w) →
    imap (label_of word_ids tag_seq tag2id keep_id) word_ids !! (S idx) =
    Some IGNORE) as Hrest.
  { intros idx w Hw Hp. rewrite list_lookup_imap, Hw. simpl.
    rewrite decide_False; [done|]. rewrite Nat.sub_0_r. naive_solver. }
  split_and!.
  - by apply assign_labels_spec.
  - by rewrite length_imap.
  - intros idx Hw. by rewrite list_lookup_imap, Hw.
  - done.
  - done.
  - intros idx l. rewrite list_lookup_imap.
    destruct (word_ids !! idx) as [[w|]|] eqn:Hw; simpl; try done.
    + destruct (decide _); [|by intros [= <-]]. intros _ _. by exists w.
    + by intros [= <-].
  - intros pre w k post -> Hlast.
    assert (∀ s, s ≤ k →
      (pre ++ replicate (S k) (Some w) ++ post) !! (length pre + s) =
      Some (Some w)) as Hrun.
    { intros s Hs. rewrite lookup_app_r by lia.
      replace (length pre + s - length pre) with s by lia.
      rewrite lookup_app_l by (rewrite length_replicate; lia).
      apply lookup_replicate_2. lia. }
    split_and!.
    + apply Hfirst. split.
      { rewrite <- (Nat.add_0_r (length pre)). apply Hrun. lia. }
      destruct pre as [|x pre _] using rev_ind; [by left|right].
      rewrite last_snoc in Hlast. rewrite length_app. simpl.
      replace (length pre + 1 - 1) with (length pre) by lia.
      rewrite <- (assoc (++)). cbn [app].
      rewrite list_lookup_middle by done. congruence.
    + unfold IGNORE. lia.
    + intros t Ht. destruct t as [|t]; [lia|].
      replace (length pre + S t) with (S (length pre + t)) by lia.
      apply Hrest with w.
      * replace (S (length pre + t)) with (length pre + S t) by lia.
        apply Hrun. lia.
      * apply Hrun. lia.
  - intros w Hw. unfold word_label. by rewrite lookup_ge_None_2.
  - intros w tag Hw Hid. unfold word_label. by rewrite Hw, Hid.
  - intros w tag id Hw Hid. unfold word_label. by rewrite Hw, Hid.
Qed.

Lemma label_assignment_witness :
  ({["DELETE" := 0; "KEEP" := 1; "REPLACE_x" := 2]} : gmap string nat)
    !! KEEP = Some 1 ∧
  ∃ labels,
    assign_labels [None; Some 0; Some 0; Some 1; Some 1; Some 1; Some 2; None]
                  ["KEEP"; "REPLACE_x"]
                  {["DELETE" := 0; "KEEP" := 1; "REPLACE_x" := 2]} =
      Ok labels ∧
    labels !! 1 = Some 1%Z ∧ labels !! 2 = Some IGNORE ∧
    labels !! 3 = Some 2%Z ∧ labels !! 6 = Some 1%Z.
Proof.
  split; [reflexivity|].
  destruct (label_assignment
    [None; Some 0; Some 0; Some 1; Some 1; Some 1; Some 2; None]
    ["KEEP"; "REPLACE_x"]
    {["DELETE" := 0; "KEEP" := 1; "REPLACE_x" := 2]} 1)
    as (labels & H & _ & _ & Hrest & Hfirst & _); [reflexivity|].
  exists labels. split; [exact H|]. split_and!.
  - apply (Hfirst 1 0). split; [reflexivity|]. right. discriminate.
  - apply (Hrest 1 0); reflexivity.
  - apply (Hfirst 3 1). split; [reflexivity|]. right. discriminate.
  - apply (Hfirst 6 2). split; [reflexivity|]. right. discriminate.
Defined.

(** ** The gap sequence *)

(** C8: for every pair of token sequences the gap sequence has
    [len(orig) + 1] entries, each of them ["KEEP_GAP"] or the
    space-joined [INSERT_] symbols of at least one word.  When the walk
    reaches an [insert] opcode, having emitted the tags [tags1], it
    writes the entry of that opcode at index [len(tags1)], which is in
    range; the entry is still there in the result. *)
Theorem gap_tags_shape (orig cor : list string) :
  ∃ ex, diff_to_tags orig cor = Ok ex ∧
    length (gap_tags ex) = length orig + 1 ∧
    Forall gap_entry (gap_tags ex) ∧
    ∀ pre i1 i2 j1 j2 post,
      difflib.get_opcodes orig cor =
        Some (pre ++ difflib.Opcode difflib.op_insert i1 i2 j1 j2 :: post) →
      ∃ tags1 gaps1,
        walk orig cor pre [] (replicate (length orig + 1) "KEEP_GAP") =
          Ok (tags1, gaps1) ∧
        length tags1 < length gaps1 ∧
        walk orig cor (pre ++ [difflib.Opcode difflib.op_insert i1 i2 j1 j2])
             [] (replicate (length orig + 1) "KEEP_GAP") =
          Ok (tags1,
              <[length tags1 := insert_entry (slice cor j1 j2)]> gaps1) ∧
        gap_tags ex !! length tags1 = Some (insert_entry (slice cor j1 j2)).
Proof.
  destruct (get_opcodes_total orig cor) as (ops & Hops & Hok).
  destruct (diff_to_tags_walk orig cor ops Hops Hok)
    as (tags' & gaps' & Hw & Hex & Ht & Hg & Hent).
  eexists. split; [exact Hex|]. simpl. split; [done|]. split; [done|].
  intros pre i1 i2 j1 j2 post Hsplit.
  rewrite Hops in Hsplit. injection Hsplit as ->.
  pose proof (ops_ok_no_adjacent _ _ _ _ _ Hok) as Hadj.
  set (ins := difflib.Opcode difflib.op_insert i1 i2 j1 j2) in *.
  set (init := replicate (length orig + 1) "KEEP_GAP") in *.
  destruct (walk_nofusion_seg orig cor pre (ins :: post) 0 0 [] init Hok)
    as (tags1 & gaps1 & i' & j' & Hpre & Hi' & Hg1 & Hok' & _);
    [done|by unfold init; rewrite length_replicate|].
  destruct Hok' as (Hi1 & Hj1 & [Hi2 Hlt] & Hhead & Hpost).
  simpl in Hi1, Hj1, Hi2, Hlt, Hpost, Hhead.
  destruct (ops_ok_le _ _ _ _ _ Hpost) as [Hle _].
  assert (length tags1 < length gaps1) as Hin by lia.
  (* the walk over [pre], then over the insert opcode *)
  assert (walk_nofusion orig cor (pre ++ [ins]) [] init =
          Ok (tags1, <[length tags1 := insert_entry (slice cor j1 j2)]> gaps1))
    as Hins.
  { rewrite walk_nofusion_app, Hpre. simpl. by rewrite set_gap_ok. }
  exists tags1, gaps1. split_and!.
  - rewrite walk_nofusion_eq; [done|].
    by eapply adjacent_delete_insert_app.
  - done.
  - rewrite walk_nofusion_eq; [done|].
    apply adjacent_delete_insert_app with post.
    by rewrite <- (assoc (++)).
  - (* what follows the insert opcode writes further right *)
    replace (pre ++ ins :: post) with ((pre ++ [ins]) ++ post) in Hw
      by by rewrite <- (assoc (++)).
    rewrite walk_nofusion_app, Hins in Hw.
    destruct post as [|[t k1 k2 l1 l2] post].
    { simpl in Hw. injection Hw as <- <-.
      by apply list_lookup_insert_eq. }
    simpl in Hhead. specialize (Hhead ltac:(done)). subst t.
    destruct Hpost as (Hk1 & Hl1 & (Hk & _) & _ & Hpost).
    simpl in Hk1, Hl1, Hk, Hpost, Hw.
    destruct (walk_nofusion_ok orig cor post k2 l2
      (tags1 ++ replicate (k2 - k1) KEEP)
      (<[length tags1 := insert_entry (slice cor j1 j2)]> gaps1) Hpost)
      as (tags2 & gaps2 & Hw2 & _ & _ & _ & Hkeep).
    { rewrite length_app, length_replicate. lia. }
    { by rewrite length_insert. }
    rewrite Hw2 in Hw. injection Hw as <- <-.
    rewrite Hkeep by (rewrite length_app, length_replicate; lia).
    by apply list_lookup_insert_eq.
Qed.

Lemma gap_tags_shape_witness :
  difflib.get_opcodes ["a"; "b"] ["x"; "a"; "b"] =
    Some ([] ++ difflib.Opcode difflib.op_insert 0 0 0 1 ::
                [difflib.Opcode difflib.op_equal 0 2 1 3]) ∧
  ∃ ex, diff_to_tags ["a"; "b"] ["x"; "a"; "b"] = Ok ex ∧
        gap_tags ex !! 0 = Some "INSERT_x".
Proof.
  split; [vm_compute; reflexivity|].
  destruct (gap_tags_shape ["a"; "b"] ["x"; "a"; "b"])
    as (ex & Hex & _ & _ & Hins).
  exists ex. split; [exact Hex|].
  destruct (Hins [] 0 0 0 1 [difflib.Opcode difflib.op_equal 0 2 1 3])
    as (tags1 & gaps1 & Hpre & _ & _ & Hfinal); [vm_compute; reflexivity|].
  injection Hpre as <- <-. exact Hfinal.
Defined.

(** ** Round trip of alignments with KEEP and REPLACE_ tags only *)

Lemma insert_entry_not_keep_gap (ws : list string) :
  insert_entry ws ≠ "KEEP_GAP".
Proof. destruct ws as [|w [|w' ws]]; done. Qed.

Lemma is_replace_REPLACE (w : string) : is_replace (REPLACE +:+ w) = true.
Proof. by destruct w. Qed.

Lemma apply_step_keep out tok : apply_step out (tok, KEEP) = out ++ [tok].
Proof. done. Qed.

Lemma apply_step_replace out tok w :
  apply_step out (tok, REPLACE +:+ w) = out ++ [w].
Proof.
  unfold apply_step. rewrite !decide_False by done.
  by rewrite is_replace_REPLACE.
Qed.

Lemma apply_fold_keep (l : list string) : ∀ out,
  foldl apply_step out (zip l (replicate (length l) KEEP)) = out ++ l.
Proof.
  induction l as [|tok l IH]; intros out; [by rewrite app_nil_r|].
  change (foldl apply_step (apply_step out (tok, KEEP))
            (zip l (replicate (length l) KEEP)) = out ++ tok :: l).
  by rewrite apply_step_keep, IH, <- (assoc (++)).
Qed.


Section round_trip.
Variables orig cor : list string.
Import difflib.

Lemma same_run_slice i j n :
  same_run orig cor i j n → take n (drop i orig) = take n (drop j cor).
Proof.
  intros H. apply list_eq. intros t. destruct (decide (t < n)) as [Ht|Ht].
  - rewrite !lookup_take_lt, !lookup_drop by done.
    destruct (H t Ht) as (x & -> & ->). done.
  - by rewrite !lookup_take_ge by lia.
Qed.




End round_trip.




(** ** Aligning a sequence with itself *)

Section identity.
Variable T : list string.
Import difflib.

Lemma b2j_get_not_key i : is_key T i = false → b2j_get T T i = [].
Proof.
  unfold is_key, b2j_get, b2j. destruct (T !! i) as [x|]; [|done].
  intros H%bool_decide_eq_false. rewrite chain_b_lookup.
  rewrite decide_True; [done|]. by apply dec_stable.
Qed.

Lemma b2j_get_key i :
  is_key T i = true →
  ∃ x, T !! i = Some x ∧ b2j_get T T i = indices x T.
Proof.
  unfold is_key, b2j_get, b2j. destruct (T !! i) as [x|] eqn:Hx; [|done].
  intros H%bool_decide_eq_true. exists x. split; [done|].
  rewrite chain_b_lookup. rewrite decide_False by done.
  rewrite decide_False; [done|]. intros E.
  apply elem_of_indices in Hx. rewrite E in Hx. by apply elem_of_nil in Hx.
Qed.

Lemma b2j_get_key_facts i :
  is_key T i = true →
  i ∈ b2j_get T T i ∧
  Forall (λ j, j < length T ∧ is_key T j = true) (b2j_get T T i).
Proof.
  intros Hk. destruct (b2j_get_key i Hk) as (x & Hx & ->).
  split; [by apply elem_of_indices|]. apply Forall_forall. intros j Hj.
  split; [by eapply indices_lt|]. apply elem_of_indices in Hj.
  unfold is_key in *. rewrite Hj. by rewrite Hx in Hk.
Qed.

Lemma inner_loop_diag i j2len best0 :
  row_inv T i (j2len, best0) → is_key T i = true →
  ∀ js newj2len best,
  StronglySorted lt js →
  Forall (λ j, j < length T ∧ is_key T j = true) js →
  (i ∈ js ∨
   (newj2len !! i = Some (key_run T (S i)) ∧ key_run T (S i) ≤ best.2 ∧
    Forall (λ j, i < j) js)) →
  diag best →
  (∀ i', i' ≤ i → key_run T i' ≤ best.2) →
  (∀ j k, newj2len !! j = Some k →
          k ≤ key_run T (S j) ∧ k ≤ key_run T (S i)) →
  row_inv T (S i) (inner_loop i 0 (length T) j2len js newj2len best).
Proof.
  intros (_ & _ & Hrow & Hdiag) Hki. simpl in Hrow, Hdiag.
  assert (∀ j, j2lenget j2len j ≤ key_run T j ∧
               j2lenget j2len j ≤ key_run T i)
    as Hget.
  { intros [|j]; simpl; [lia|]. destruct (j2len !! j) as [k|] eqn:E; simpl;
      [by apply Hrow|lia]. }
  induction js as [|j js IH];
    intros newj2len best Hsort Hjs Hwhere Hd Hbest Hnew.
  - simpl. destruct Hwhere as [Hin|(Hi & Hle & _)];
      [by apply elem_of_nil in Hin|].
    split_and!; simpl; try done.
    + intros i' Hi'. destruct (decide (i' = S i)) as [->|]; [done|].
      apply Hbest. lia.
    + by rewrite Hi.
  - apply Forall_cons in Hjs as [[Hjn Hkj] Hjs].
    apply StronglySorted_cons in Hsort as [Hlt Hsort].
    simpl. rewrite (decide_False (P := length T ≤ j)) by lia.
    destruct (Hget j) as [Hg1 Hg2].
    assert (j2lenget j2len j + 1 ≤ key_run T (S j) ∧
            j2lenget j2len j + 1 ≤ key_run T (S i)) as [Hk1 Hk2].
    { simpl. rewrite Hkj, Hki. lia. }
    assert (∀ j' k, <[j := j2lenget j2len j + 1]> newj2len !! j' = Some k →
                    k ≤ key_run T (S j') ∧ k ≤ key_run T (S i)) as Hnew'.
    { intros j' k. destruct (decide (j' = j)) as [->|].
      - rewrite lookup_insert_eq. by intros [= <-].
      - rewrite lookup_insert_ne by done. apply Hnew. }
    destruct (decide (j = i)) as [->|Hne].
    + (* the diagonal entry *)
      assert (j2lenget j2len i + 1 = key_run T (S i)) as Hk
        by (simpl; rewrite Hki; lia).
      apply IH; try done.
      * right. split; [by rewrite lookup_insert_eq, Hk|]. split; [|done].
        destruct (decide _); cbn [snd]; lia.
      * destruct (decide _); [done|done].
      * intros i' Hi'. specialize (Hbest i' Hi').
        destruct (decide _); cbn [snd]; lia.
    + destruct Hwhere as [Hin|(Hi & Hle & Hall)].
      * (* before the diagonal *)
        apply elem_of_cons in Hin as [?|Hin]; [done|].
        assert (j < i) as Hji by by eapply Forall_forall in Hlt.
        assert (key_run T (S j) ≤ best.2) by (apply Hbest; lia).
        rewrite decide_False by lia. apply IH; try done. by left.
      * (* after the diagonal *)
        apply Forall_cons in Hall as [Hij Hall].
        rewrite decide_False by lia. apply IH; try done. right.
        split; [by rewrite lookup_insert_ne|done].
Qed.

Lemma row_step i st :
  i < length T → row_inv T i st →
  row_inv T (S i) (outer_step T T 0 (length T) st i).
Proof.
  intros Hi Hinv. unfold outer_step. destruct st as [j2len best].
  destruct (is_key T i) eqn:Hk.
  - destruct (b2j_get_key_facts i Hk) as [Hin Hall].
    pose proof Hinv as (Hd & Hbest & _). simpl.
    eapply inner_loop_diag; try done.
    + apply b2j_get_sorted.
    + by left.
  - simpl. rewrite (b2j_get_not_key i Hk). simpl.
    destruct Hinv as (Hd & Hbest & _ & _). split_and!; simpl; try done.
    + intros i' Hi'. destruct (decide (i' = S i)) as [->|].
      * simpl. rewrite Hk. lia.
      * apply Hbest. lia.
    + by rewrite Hk.
Qed.

Lemma rows_diag n :
  n ≤ length T →
  row_inv T n (foldl (outer_step T T 0 (length T)) (∅, (0, 0, 0)) (seq 0 n)).
Proof.
  induction n as [|n IH]; intros Hn.
  - by split_and!; simpl; try done; intros i' ?; assert (i' = 0) as -> by lia.
  - rewrite seq_S, foldl_app. simpl. apply row_step; [lia|]. apply IH. lia.
Qed.

Lemma isbjunk_false (x : string) : isbjunk x = false.
Proof. apply bool_decide_eq_false, not_elem_of_empty. Qed.

Lemma same_elem_self j : j < length T → same_elem T T false j j = true.
Proof.
  intros [x Hx]%lookup_lt_is_Some. unfold same_elem. rewrite Hx.
  rewrite isbjunk_false. by rewrite !bool_decide_eq_true_2 by done.
Qed.

Lemma extend_back_self i : ∀ k,
  i ≤ length T → extend_back T T false 0 0 i i k = (0, 0, k + i).
Proof.
  induction i as [|i IH]; intros k Hi; simpl.
  - by rewrite Nat.add_0_r.
  - rewrite same_elem_self by lia.
    rewrite IH by lia. f_equal. lia.
Qed.

Lemma extend_fwd_self room : ∀ k,
  k + room = length T →
  extend_fwd_loop T T false (length T) room 0 0 k = (0, 0, length T).
Proof.
  induction room as [|room IH]; intros k Hk; simpl.
  - f_equal. lia.
  - rewrite decide_True by lia. rewrite same_elem_self by lia.
    apply IH. lia.
Qed.

(** The longest match of a sequence with itself is the whole sequence. *)
Lemma find_longest_match_self :
  find_longest_match T T 0 (length T) 0 (length T) = (0, 0, length T).
Proof.
  unfold find_longest_match.
  pose proof (main_loop_ok T T 0 (length T) 0 (length T)) as Hok.
  pose proof (rows_diag (length T)) as (Hd & _).
  { done. }
  unfold main_loop in *. rewrite Nat.sub_0_r in *.
  destruct (foldl _ _ _) as [j2len [[bi bj] bs]]. simpl in *.
  unfold diag in Hd. simpl in Hd. subst bj.
  destruct Hok as (_ & Hle & _); [lia..|].
  rewrite extend_back_self by lia.
  unfold extend_fwd. rewrite extend_fwd_self by lia. simpl.
  by rewrite Nat.sub_diag.
Qed.

Lemma matching_loop_nil fuel acc : matching_loop T T fuel [] acc = Some acc.
Proof. by destruct fuel. Qed.

Lemma matching_loop_self :
  matching_loop T T (2 * length T + 1) [(0, length T, 0, length T)] [] =
  Some (if decide (length T ≠ 0) then [(0, 0, length T)] else []).
Proof.
  rewrite Nat.add_1_r. cbn [matching_loop].
  rewrite find_longest_match_self.
  destruct (decide (length T ≠ 0)); [|apply matching_loop_nil].
  rewrite (decide_False (P := 0 < 0 ∧ 0 < 0)) by lia.
  rewrite (decide_False (P := 0 + length T < length T ∧ _)) by lia.
  apply matching_loop_nil.
Qed.

Lemma get_opcodes_self :
  get_opcodes T T =
  Some (if decide (length T ≠ 0)
        then [Opcode op_equal 0 (length T) 0 (length T)] else []).
Proof.
  unfold get_opcodes, get_matching_blocks. rewrite matching_loop_self.
  destruct (decide (length T ≠ 0)) as [Hn|Hn].
  - cbn -[decide Nat.add]. unfold opcodes_of, collapse.
    cbn -[decide Nat.add].
    rewrite (decide_True (P := 0 + 0 = 0 ∧ 0 + 0 = 0)) by lia.
    rewrite (decide_True (P := 0 + length T ≠ 0)) by lia.
    cbn -[decide Nat.add].
    repeat (first [rewrite decide_True by lia | rewrite decide_False by lia]).
    done.
  - cbn -[decide Nat.add]. unfold opcodes_of, collapse.
    cbn -[decide Nat.add].
    repeat (first [rewrite decide_True by lia | rewrite decide_False by lia]).
    cbn -[decide Nat.add].
    repeat (first [rewrite decide_True by lia | rewrite decide_False by lia]).
    done.
Qed.
End identity.

(** C4: aligning a token sequence with itself gives [KEEP] for every
    token, and no gap entry. *)
Theorem diff_to_tags_identity (T : list string) :
  diff_to_tags T T =
  Ok (mkTaggedExample T (replicate (length T) KEEP)
                      (replicate (length T + 1) "KEEP_GAP")).
Proof.
  unfold diff_to_tags, tags_of_opcodes. rewrite get_opcodes_self.
  destruct (decide (length T ≠ 0)); simpl.
  - rewrite Nat.sub_0_r. by rewrite decide_True by by rewrite length_replicate.
  - assert (length T = 0) as -> by lia. done.
Qed.

(** ** The helpers of tags.py *)

(** A string without ["_"]. *)
Lemma after_underscore_app (p w : string) :
  after_underscore (p +:+ w) =
  match after_underscore p with
  | Some r => Some (r +:+ w)
  | None => after_underscore w
  end.
Proof.
  induction p as [|c p IH]; simpl; [done|].
  destruct (decide (c = "_"%char)); [done|]. exact IH.
Qed.

Lemma strip_prefix_insert (w : string) : strip_prefix (INSERT +:+ w) = w.
Proof. done. Qed.

Lemma is_insert_INSERT (w : string) : is_insert (INSERT +:+ w) = true.
Proof. unfold is_insert. simpl. by destruct w. Qed.

Lemma is_replace_not_insert (t : string) :
  is_replace t = true → is_insert t = false.
Proof. intros [w ->]%prefix_split. unfold is_insert. simpl. by destruct w. Qed.

Lemma after_underscore_None (p : string) :
  after_underscore p = None ↔ "_"%char ∉ String.list_ascii_of_string p.
Proof.
  induction p as [|c p IH]; simpl.
  - split; [intros _; apply not_elem_of_nil|done].
  - destruct (decide (c = "_"%char)) as [->|Hc].
    + split; [done|]. intros H. destruct H. apply elem_of_cons. by left.
    + rewrite IH, not_elem_of_cons. naive_solver.
Qed.

(** X1: [strip_prefix] returns what follows the first underscore of a
    tag, whatever stands before it: the word of [REPLACE_w] and of
    [INSERT_w] comes back unchanged, also when [w] itself holds
    underscores, and a tag without underscore ([KEEP], [DELETE]) gives
    the empty string. *)
Theorem strip_prefix_first_underscore :
  (∀ w, strip_prefix (REPLACE +:+ w) = w ∧ strip_prefix (INSERT +:+ w) = w) ∧
  (∀ p w, "_"%char ∉ String.list_ascii_of_string p →
          strip_prefix (p +:+ "_" +:+ w) = w) ∧
  (∀ tag, "_"%char ∉ String.list_ascii_of_string tag → strip_prefix tag = "") ∧
  strip_prefix KEEP = "" ∧ strip_prefix DELETE = "".
Proof.
  split_and!; try done.
  - intros p w Hp%after_underscore_None. unfold strip_prefix.
    by rewrite after_underscore_app, Hp.
  - intros tag Hp%after_underscore_None. unfold strip_prefix. by rewrite Hp.
Qed.

(** X2: the four kinds of tag exclude one another: a tag that starts
    with [REPLACE_] is not [KEEP], not [DELETE] and does not start with
    [INSERT_], and likewise for [INSERT_]; [KEEP] and [DELETE] carry
    neither prefix.  The order of the tests in [apply_tags] therefore
    does not matter. *)
Theorem tag_kinds_exclusive :
  (∀ t, is_replace t = true → t ≠ KEEP ∧ t ≠ DELETE ∧ is_insert t = false) ∧
  (∀ t, is_insert t = true → t ≠ KEEP ∧ t ≠ DELETE ∧ is_replace t = false) ∧
  (∀ w, is_replace (REPLACE +:+ w) = true ∧ is_insert (INSERT +:+ w) = true) ∧
  is_replace KEEP = false ∧ is_replace DELETE = false ∧
  is_insert KEEP = false ∧ is_insert DELETE = false ∧ KEEP ≠ DELETE.
Proof.
  split_and!; try done.
  - intros t Ht. split_and!.
    + by intros ->.
    + by intros ->.
    + by apply is_replace_not_insert.
  - intros t Ht. split_and!.
    + by intros ->.
    + by intros ->.
    + destruct (is_replace t) eqn:E; [|done].
      apply is_replace_not_insert in E. congruence.
  - intros w. split; [apply is_replace_REPLACE|apply is_insert_INSERT].
Qed.

(** ** The reconstruction loop *)

Lemma apply_step_other out tok tg :
  tg ≠ DELETE → is_replace tg = false → apply_step out (tok, tg) = out ++ [tok].
Proof.
  intros Hd Hr. unfold apply_step.
  destruct (decide (tg = KEEP)); [done|].
  destruct (decide (tg = DELETE)); [done|]. by rewrite Hr.
Qed.

Lemma apply_fold_other (tags : list string) : ∀ tokens out,
  Forall (λ tg, tg ≠ DELETE ∧ is_replace tg = false) tags →
  foldl apply_step out (zip tokens tags) = out ++ take (length tags) tokens.
Proof.
  induction tags as [|tg tags IH]; intros tokens out Hall.
  - rewrite zip_with_nil_r. simpl. by rewrite take_0, app_nil_r.
  - apply Forall_cons in Hall as [[Hd Hr] Hall].
    destruct tokens as [|tok tokens]; simpl; [by rewrite app_nil_r|].
    change (foldl apply_step (apply_step out (tok, tg)) (zip tokens tags) =
            out ++ tok :: take (length tags) tokens).
    rewrite apply_step_other, IH by done. by rewrite <- app_assoc.
Qed.

(** X3: a tag that is neither [DELETE] nor starts with [REPLACE_] keeps
    its token: besides [KEEP] this holds for an [INSERT_] tag and for
    any string the vocabulary does not know.  With such tags only,
    [apply_tags] returns the tokens that have a tag, joined by single
    spaces. *)
Theorem apply_tags_other_tags_keep (tokens tags : list string) :
  Forall (λ tg, tg ≠ DELETE ∧ is_replace tg = false) tags →
  apply_tags tokens tags = join_spaces (take (length tags) tokens) ∧
  _apply_tags tokens tags = join_spaces (take (length tags) tokens).
Proof.
  intros Hall. unfold apply_tags, _apply_tags.
  by rewrite apply_fold_other.
Qed.

Lemma apply_tags_other_tags_keep_witness :
  apply_tags ["teh"; "cat"; "sat"] ["INSERT_the"; "KEEP_GAP"] =
    join_spaces ["teh"; "cat"] ∧
  _apply_tags ["teh"; "cat"; "sat"] ["INSERT_the"; "KEEP_GAP"] =
    join_spaces ["teh"; "cat"].
Proof.
  apply (apply_tags_other_tags_keep ["teh"; "cat"; "sat"]
                                    ["INSERT_the"; "KEEP_GAP"]).
  repeat constructor; done.
Defined.

Lemma verbose_fold {P} (results : list (token_result P)) : ∀ tokens out,
  foldl verbose_step out (zip tokens results) =
  foldl apply_step out (zip tokens (res_tag <$> results)).
Proof.
  induction results as [|r results IH]; intros tokens out.
  - by rewrite fmap_nil, !zip_with_nil_r.
  - destruct tokens as [|tok tokens]; [done|]. rewrite fmap_cons. simpl.
    rewrite <- IH. done.
Qed.

(** X4: the reconstruction loop written out in [predict_verbose] returns
    what [apply_tags] returns on the tags of [results]; the token and
    the probabilities stored in an entry play no part. *)
Theorem verbose_corrected_apply_tags {P : Type} (tokens : list string)
    (results : list (token_result P)) :
  verbose_corrected tokens results = apply_tags tokens (res_tag <$> results) ∧
  verbose_corrected tokens results = _apply_tags tokens (res_tag <$> results).
Proof.
  unfold verbose_corrected, apply_tags, _apply_tags.
  by rewrite verbose_fold.
Qed.

(** ** The alignment is lossless *)

Lemma apply_step_piece out p : apply_step out p = out ++ token_piece p.
Proof.
  destruct p as [tok tg]. unfold token_piece, apply_step.
  repeat case_match; by rewrite ?app_nil_r.
Qed.

Lemma apply_fold_pieces (l : list (string * string)) : ∀ out,
  foldl apply_step out l = out ++ concat (token_piece <$> l).
Proof.
  induction l as [|p l IH]; intros out; simpl; [by rewrite app_nil_r|].
  rewrite IH, apply_step_piece. by rewrite <- app_assoc.
Qed.

Lemma pieces_keep (n : nat) : ∀ toks : list string,
  concat (token_piece <$> zip toks (replicate n KEEP)) = take n toks.
Proof.
  induction n as [|n IH]; intros [|t toks]; simpl; try done.
  by rewrite IH.
Qed.

Lemma pieces_delete (n : nat) : ∀ toks : list string,
  concat (token_piece <$> zip toks (replicate n DELETE)) = [].
Proof. induction n as [|n IH]; intros [|t toks]; simpl; try done. Qed.

Lemma pieces_replace (ws : list string) : ∀ toks : list string,
  length ws ≤ length toks →
  concat (token_piece <$> zip toks ((λ w, REPLACE +:+ w) <$> ws)) = ws.
Proof.
  induction ws as [|w ws IH]; intros toks Hlen.
  - by destruct toks.
  - destruct toks as [|t toks]; [simpl in Hlen; lia|].
    change (token_piece (t, REPLACE +:+ w) ++
            concat (token_piece <$> zip toks ((λ w, REPLACE +:+ w) <$> ws)) =
            w :: ws).
    rewrite IH by (simpl in Hlen; lia). unfold token_piece.
    by rewrite apply_step_replace.
Qed.

Lemma zip_with_app_nils {A} (P : list (list A)) : ∀ n,
  length P ≤ n → zip_with app (replicate n []) P = P.
Proof.
  induction P as [|p P IH]; intros [|n] Hn; simpl in *; try done; try lia.
  by rewrite IH by lia.
Qed.

Lemma interleave_snoc (done : list (list string)) : ∀ pieces cur,
  length done = length pieces →
  interleave (done ++ [cur]) pieces = concat (zip_with app done pieces) ++ cur.
Proof.
  induction done as [|s done IH]; intros [|p pieces] cur Hlen;
    simpl in *; try done.
  - by rewrite app_nil_r.
  - rewrite IH by lia. by rewrite <- !app_assoc.
Qed.

(** Moving on by [n ≥ 1] tokens whose words are [P]: the gap that was
    open and the [n - 1] gaps after it are settled. *)
Lemma advance_zip (done pieces P : list (list string)) (cur : list string) n :
  length done = length pieces → length P = S n →
  concat (zip_with app (done ++ [cur] ++ replicate n []) (pieces ++ P)) =
  concat (zip_with app done pieces) ++ cur ++ concat P.
Proof.
  intros Hlen HP. rewrite zip_with_app, concat_app by done. f_equal.
  destruct P as [|p P]; [done|]. simpl in *.
  rewrite zip_with_app_nils by lia. by rewrite <- app_assoc.
Qed.

Lemma advance_spans (done : list (list string)) (cur : list string) n m :
  done ++ [cur] ++ replicate (S n + m) [] =
  (done ++ [cur] ++ replicate n []) ++ [[]] ++ replicate m [].
Proof.
  replace (S n + m) with (n + S m) by lia. rewrite replicate_add.
  simpl. by rewrite <- !app_assoc.
Qed.

Lemma gap_of_nonempty (ws : list string) :
  ws ≠ [] → gap_of ws = insert_entry ws.
Proof. intros H. unfold gap_of. by rewrite decide_False. Qed.

Lemma gap_write (done rest : list (list string)) (ws : list string) :
  ws ≠ [] →
  <[length done := insert_entry ws]> (gap_of <$> (done ++ [[]] ++ rest)) =
  gap_of <$> (done ++ [ws] ++ rest).
Proof.
  intros Hws. rewrite <- (gap_of_nonempty ws Hws), <- list_fmap_insert.
  f_equal. rewrite insert_app_r_alt by lia. by rewrite Nat.sub_diag.
Qed.

Lemma take_slice {A} (l : list A) (j j2 : nat) :
  j ≤ j2 → take j l ++ slice l j j2 = take j2 l.
Proof.
  intros Hle. unfold slice. rewrite take_take_drop. f_equal. lia.
Qed.

Section decode.
Variables orig cor : list string.

Lemma zip_snoc_tags (tags gen : list string) :
  length tags ≤ length orig →
  zip orig (tags ++ gen) = zip orig tags ++ zip (drop (length tags) orig) gen.
Proof.
  intros Hlen. by rewrite zip_with_app_r, zip_with_take_l.
Qed.

Lemma walk_nofusion_decode ops : ∀ i j tags done cur,
  ops_ok orig cor i j ops →
  length tags = i → length done = i →
  (cur = [] ∨ head_equal ops) →
  concat (zip_with app done (token_piece <$> zip orig tags)) ++ cur =
    take j cor →
  ∃ tags' spans,
    walk_nofusion orig cor ops tags
      (gap_of <$> (done ++ [cur] ++ replicate (length orig - i) [])) =
      Ok (tags', gap_of <$> spans) ∧
    length tags' = length orig ∧ length spans = length orig + 1 ∧
    interleave spans (token_piece <$> zip orig tags') = cor.
Proof.
  induction ops as [|[t i1 i2 j1 j2] ops IH]; intros i j tags done cur.
  { intros [-> ->] Ht Hd _ Hcat. exists tags, (done ++ [cur]).
    rewrite Nat.sub_diag. simpl. split_and!; try done.
    - rewrite length_app. simpl. lia.
    - rewrite interleave_snoc, Hcat; [by rewrite take_ge by lia|].
      rewrite length_fmap, length_zip_with. lia. }
  intros (Hi & Hj & Hs & Hhead & Hrest) Ht Hd Hcur Hcat.
  simpl in Hi, Hj, Hrest, Hhead. subst i1 j1.
  assert (i2 ≤ length orig ∧ j2 ≤ length cor) as [Hi2 Hj2]
    by by eapply ops_ok_le.
  unfold op_shape in Hs. simpl in Hs.
  assert (i ≤ i2 ∧ j ≤ j2) as [Hii Hjj] by (destruct t; lia).
  assert (length (token_piece <$> zip orig tags) = i) as Hpl.
  { rewrite length_fmap, length_zip_with. lia. }
  (** The tokens [i .. i2 - 1] are tagged [gen] and add the words [W]. *)
  assert (∀ gen W cur1,
    i < i2 → length gen = i2 - i →
    concat (token_piece <$> zip (drop i orig) gen) = W →
    W ++ cur1 = slice cor j j2 →
    (cur1 = [] ∨ head_equal ops) →
    ∃ tags' spans,
      walk_nofusion orig cor ops (tags ++ gen)
        (gap_of <$> ((done ++ [cur] ++ replicate (i2 - i - 1) []) ++
                     [cur1] ++ replicate (length orig - i2) [])) =
        Ok (tags', gap_of <$> spans) ∧
      length tags' = length orig ∧ length spans = length orig + 1 ∧
      interleave spans (token_piece <$> zip orig tags') = cor) as Hnext.
  { intros gen W cur1 Hlt Hgen HW Hcut Hcur1.
    apply (IH i2 j2); try done.
    - rewrite length_app. lia.
    - rewrite !length_app, length_replicate. simpl. lia.
    - rewrite zip_snoc_tags, fmap_app by lia. rewrite Ht.
      replace (i2 - i - 1) with (pred (i2 - i)) by lia.
      rewrite (advance_zip _ _ _ _ (pred (i2 - i))); [|lia|].
      + rewrite HW, <- (take_slice cor j j2), <- Hcut, <- Hcat by done.
        by rewrite <- !app_assoc.
      + rewrite length_fmap, length_zip_with, length_drop. lia. }
  assert (slice cor j j2 ≠ [] → i < i2 →
    <[i2 := insert_entry (slice cor j j2)]>
      (gap_of <$> ((done ++ [cur] ++ replicate (i2 - i - 1) []) ++
                   [[]] ++ replicate (length orig - i2) [])) =
    gap_of <$> ((done ++ [cur] ++ replicate (i2 - i - 1) []) ++
                [slice cor j j2] ++ replicate (length orig - i2) []))
    as Hwrite.
  { intros Hne Hlt. rewrite <- (gap_write _ _ (slice cor j j2)) by done.
    f_equal. rewrite !length_app, length_replicate. simpl. lia. }
  assert (i < i2 →
    gap_of <$> (done ++ [cur] ++ replicate (length orig - i) []) =
    gap_of <$> ((done ++ [cur] ++ replicate (i2 - i - 1) []) ++
                [[]] ++ replicate (length orig - i2) [])) as Hadv.
  { intros Hlt. f_equal. rewrite <- advance_spans. do 3 f_equal. lia. }
  cbn [walk_nofusion]. destruct t.
  - (* equal *)
    destruct Hs as (Hlt & Hlt' & Hn & Hrun).
    rewrite Hadv by done. apply (Hnext _ (slice cor j j2)).
    + done.
    + by rewrite length_replicate.
    + rewrite pieces_keep. unfold slice. rewrite <- Hn.
      by apply same_run_slice.
    + by rewrite app_nil_r.
    + by left.
  - (* delete *)
    destruct Hs as (Hlt & <-).
    rewrite Hadv by done. apply (Hnext _ []).
    + done.
    + by rewrite length_replicate.
    + by rewrite pieces_delete.
    + unfold slice. by rewrite Nat.sub_diag.
    + by left.
  - (* replace *)
    destruct Hs as (Hlt & Hlt'). rewrite !length_slice by done.
    assert (slice cor j j2 ≠ []) as Hne by by apply slice_nonempty.
    destruct (decide (i2 - i = j2 - j)) as [Hn|Hn].
    + rewrite Hadv by done. apply (Hnext _ (slice cor j j2)).
      * done.
      * rewrite length_fmap, length_slice by done. lia.
      * apply pieces_replace. rewrite length_slice, length_drop by done. lia.
      * by rewrite app_nil_r.
      * by left.
    + rewrite set_gap_ok.
      2:{ rewrite length_fmap, !length_app, !length_replicate. simpl. lia. }
      rewrite length_app, length_replicate, Ht.
      replace (i + (i2 - i)) with i2 by lia.
      rewrite Hadv, Hwrite by done. apply (Hnext _ []).
      * done.
      * by rewrite length_replicate.
      * by rewrite pieces_delete.
      * done.
      * right. apply Hhead. done.
  - (* insert *)
    destruct Hs as (<- & Hlt').
    assert (slice cor j j2 ≠ []) as Hne by by apply slice_nonempty.
    destruct Hcur as [->|Heq]; [|done].
    rewrite set_gap_ok.
    2:{ rewrite length_fmap, !length_app, !length_replicate. simpl. lia. }
    rewrite Ht, <- Hd, gap_write by done. rewrite Hd.
    apply (IH i j2); try done.
    + right. by apply Hhead.
    + rewrite app_nil_r in Hcat. rewrite Hcat. by apply take_slice.
Qed.

End decode.

Lemma diff_to_tags_decode (orig cor : list string) :
  ∃ tags spans,
    diff_to_tags orig cor =
      Ok (mkTaggedExample orig tags (gap_of <$> spans)) ∧
    length tags = length orig ∧ length spans = length orig + 1 ∧
    interleave spans (token_piece <$> zip orig tags) = cor.
Proof.
  destruct (get_opcodes_total orig cor) as (ops & Hops & Hok).
  destruct (diff_to_tags_walk orig cor ops Hops Hok)
    as (tags' & gaps' & Hw & Hd & _).
  destruct (walk_nofusion_decode orig cor ops 0 0 [] [] [] Hok)
    as (tags1 & spans & Hw1 & Hlen & Hsp & Hint); try done.
  { by left. }
  assert (replicate (length orig + 1) "KEEP_GAP" =
          gap_of <$> ([] ++ [[]] ++ replicate (length orig - 0) [])) as Hg.
  { rewrite Nat.sub_0_r, Nat.add_1_r. simpl. f_equal.
    by rewrite fmap_replicate. }
  rewrite Hg, Hw1 in Hw. injection Hw as <- <-.
  exists tags1, spans. by rewrite Hd.
Qed.

(** X5: the alignment is lossless.  The gap entries of [diff_to_tags]
    stand for word lists ([KEEP_GAP] for none, the joined [INSERT_]
    symbols otherwise), one per gap, and reading gap 0, token 0, gap 1,
    token 1, ... with every token replaced by what its tag makes of it
    gives back the corrected sequence. *)
Theorem diff_to_tags_lossless (orig cor : list string) :
  ∃ tags spans,
    diff_to_tags orig cor =
      Ok (mkTaggedExample orig tags (gap_of <$> spans)) ∧
    length tags = length orig ∧ length spans = length orig + 1 ∧
    interleave spans (token_piece <$> zip orig tags) = cor.
Proof. apply diff_to_tags_decode. Qed.

Lemma interleave_sublist (spans : list (list string)) : ∀ pieces,
  length pieces ≤ length spans →
  concat pieces `sublist_of` interleave spans pieces.
Proof.
  induction spans as [|s spans IH]; intros [|p pieces] Hlen;
    simpl in *; try lia.
  - constructor.
  - apply sublist_nil_l.
  - apply sublist_inserts_l, sublist_app; [done|]. apply IH. lia.
Qed.

Lemma interleave_clean (spans : list (list string)) : ∀ pieces,
  length pieces ≤ length spans → Forall (λ s, s = []) spans →
  interleave spans pieces = concat pieces.
Proof.
  induction spans as [|s spans IH]; intros [|p pieces] Hlen Hall;
    simpl in *; try done; try lia.
  - by apply Forall_cons in Hall as [-> _].
  - apply Forall_cons in Hall as [-> Hall]. simpl. rewrite IH; [done|lia|done].
Qed.

Lemma length_interleave (spans : list (list string)) : ∀ pieces,
  length spans = S (length pieces) →
  length (interleave spans pieces) =
  length (concat spans) + length (concat pieces).
Proof.
  induction spans as [|s spans IH]; intros [|p pieces] Hlen;
    simpl in *; try lia.
  - destruct spans as [|s' spans]; simpl in *; [|lia].
    rewrite !length_app. simpl. lia.
  - rewrite !length_app, IH by lia. lia.
Qed.

Lemma concat_nil_Forall {A} (ls : list (list A)) :
  length (concat ls) = 0 → Forall (λ s, s = []) ls.
Proof.
  induction ls as [|l ls IH]; simpl; [constructor|].
  rewrite length_app. intros H. constructor.
  - destruct l; [done|simpl in H; lia].
  - apply IH. lia.
Qed.

Lemma gap_of_keep_gap (ws : list string) : gap_of ws = "KEEP_GAP" ↔ ws = [].
Proof.
  unfold gap_of. destruct (decide (ws = [])) as [->|Hne]; [done|].
  split; [|done]. intros H. by apply insert_entry_not_keep_gap in H.
Qed.

Lemma diff_to_tags_words (orig cor : list string) :
  ∃ ex, diff_to_tags orig cor = Ok ex ∧
    foldl apply_step [] (zip orig (tags ex)) `sublist_of` cor ∧
    (Forall (λ g, g = "KEEP_GAP") (gap_tags ex) ↔
     foldl apply_step [] (zip orig (tags ex)) = cor) ∧
    (Forall (λ g, g = "KEEP_GAP") (gap_tags ex) →
     apply_tags orig (tags ex) = join_spaces cor ∧
     _apply_tags orig (tags ex) = join_spaces cor).
Proof.
  destruct (diff_to_tags_decode orig cor)
    as (tags' & spans & Hd & Hlen & Hsp & Hint).
  eexists. split; [exact Hd|]. simpl.
  assert (length (token_piece <$> zip orig tags') = length orig) as Hpl.
  { rewrite length_fmap, length_zip_with. lia. }
  rewrite apply_fold_pieces. simpl.
  assert (Forall (λ g, g = "KEEP_GAP") (gap_of <$> spans) ↔
          concat (token_piece <$> zip orig tags') = cor) as Hiff.
  { rewrite Forall_fmap. split.
    - intros Hall. rewrite <- Hint at 1. symmetry.
      apply interleave_clean; [lia|].
      eapply Forall_impl; [exact Hall|]. intros ws. apply gap_of_keep_gap.
    - intros Heq.
      assert (length (concat spans) = 0) as H0.
      { pose proof (length_interleave spans
          (token_piece <$> zip orig tags')) as Hl.
        rewrite Hint, <- Heq in Hl. specialize (Hl ltac:(lia)). lia. }
      eapply Forall_impl; [by apply concat_nil_Forall|].
      intros ws ->. by apply gap_of_keep_gap. }
  split_and!.
  - rewrite <- Hint at 1. apply interleave_sublist. lia.
  - exact Hiff.
  - intros Hall. apply Hiff in Hall. unfold apply_tags, _apply_tags.
    rewrite apply_fold_pieces. simpl. by rewrite Hall.
Qed.


(** X6: what [apply_tags] makes of an alignment.  The words it returns
    for the tags of [diff_to_tags] are a subsequence of the corrected
    sequence; they are the whole corrected sequence exactly when every
    gap entry is [KEEP_GAP], whatever tags the alignment holds. *)
Theorem apply_tags_diff_to_tags (orig cor : list string) :
  ∃ ex, diff_to_tags orig cor = Ok ex ∧
    foldl apply_step [] (zip orig (tags ex)) `sublist_of` cor ∧
    (Forall (λ g, g = "KEEP_GAP") (gap_tags ex) ↔
     foldl apply_step [] (zip orig (tags ex)) = cor) ∧
    (Forall (λ g, g = "KEEP_GAP") (gap_tags ex) →
     apply_tags orig (tags ex) = join_spaces cor ∧
     _apply_tags orig (tags ex) = join_spaces cor).
Proof. apply diff_to_tags_words. Qed.

(** ** The tags of an alignment *)

Section alphabet.
Variables orig cor : list string.

Lemma elem_of_slice {A} (l : list A) (i1 i2 : nat) (x : A) :
  x ∈ slice l i1 i2 → x ∈ l.
Proof.
  unfold slice. intros (k & Hk & _)%elem_of_take.
  rewrite lookup_drop in Hk. by eapply list_elem_of_lookup_2.
Qed.

Lemma walk_nofusion_sound ops : ∀ i j tags gaps tags' gaps',
  ops_ok orig cor i j ops → length tags = i →
  walk_nofusion orig cor ops tags gaps = Ok (tags', gaps') →
  Forall2 (tag_sound cor) (take i orig) tags →
  Forall2 (tag_sound cor) orig tags'.
Proof.
  induction ops as [|[t i1 i2 j1 j2] ops IH];
    intros i j tags gaps tags' gaps'.
  { intros [-> _] _ [= <- <-]. by rewrite take_ge by lia. }
  intros (Hi & Hj & Hs & _ & Hrest) Ht Hw Hall.
  simpl in Hi, Hj, Hrest. subst i1 j1.
  assert (i2 ≤ length orig ∧ j2 ≤ length cor) as [Hi2 Hj2]
    by by eapply ops_ok_le.
  unfold op_shape in Hs. simpl in Hs.
  assert (i ≤ i2 ∧ j ≤ j2) as [Hii Hjj] by (destruct t; lia).
  assert (∀ gen gaps1,
    walk_nofusion orig cor ops (tags ++ gen) gaps1 = Ok (tags', gaps') →
    Forall2 (tag_sound cor) (slice orig i i2) gen →
    Forall2 (tag_sound cor) orig tags') as Hnext.
  { intros gen gaps1 Hw1 Hgen.
    apply (IH i2 j2 (tags ++ gen) gaps1 tags' gaps'); try done.
    - rewrite length_app. apply Forall2_length in Hgen.
      rewrite length_slice in Hgen by done. lia.
    - replace i2 with (i + (i2 - i)) by lia.
      rewrite <- take_take_drop. by apply Forall2_app. }
  assert (Forall2 (tag_sound cor) (slice orig i i2)
                  (replicate (i2 - i) DELETE)) as Hdel.
  { apply Forall2_replicate_r; [by rewrite length_slice|].
    apply Forall_forall. intros tok _. right. by left. }
  cbn [walk_nofusion] in Hw. destruct t.
  - destruct Hs as (Hlt & Hlt' & Hn & Hrun).
    apply (Hnext _ _ Hw).
    apply Forall2_replicate_r; [by rewrite length_slice|].
    apply Forall_forall. intros tok Htok. left. split; [done|].
    unfold slice in Htok. rewrite (same_run_slice _ cor i j) in Htok by done.
    rewrite Hn in Htok. by apply (elem_of_slice cor j j2).
  - apply (Hnext _ _ Hw Hdel).
  - destruct Hs as (Hlt & Hlt'). rewrite !length_slice in Hw by done.
    destruct (decide (i2 - i = j2 - j)) as [Hn|Hn].
    + apply (Hnext _ _ Hw). apply Forall2_fmap_r, Forall2_same_length_lookup_2.
      { by rewrite !length_slice. }
      intros k tok w _ Hw'. right. right. exists w.
      split; [|done]. eapply elem_of_slice, list_elem_of_lookup_2, Hw'.
    + destruct (set_gap _ _ _) as [gaps1| |]; try done.
      apply (Hnext _ _ Hw Hdel).
  - destruct Hs as (<- & Hlt').
    destruct (set_gap _ _ _) as [gaps1| |]; try done.
    apply (IH i j2 tags gaps1 tags' gaps'); done.
Qed.

Lemma diff_to_tags_sound :
  ∃ ex, diff_to_tags orig cor = Ok ex ∧
        Forall2 (tag_sound cor) orig (tags ex).
Proof.
  destruct (get_opcodes_total orig cor) as (ops & Hops & Hok).
  destruct (diff_to_tags_walk orig cor ops Hops Hok)
    as (tags' & gaps' & Hw & Hd & _).
  eexists. split; [exact Hd|]. simpl.
  by eapply (walk_nofusion_sound ops 0 0 []).
Qed.

End alphabet.

(** X7: the tags of [diff_to_tags] are [KEEP], [DELETE] and [REPLACE_w]
    only: a token tagged [KEEP] occurs in the corrected sequence, the
    word [w] of a [REPLACE_w] tag is a token of the corrected sequence,
    and no tag starts with [INSERT_] (insertions live in the gap entries
    alone). *)
Theorem diff_to_tags_tag_alphabet (orig cor : list string) :
  ∃ ex, diff_to_tags orig cor = Ok ex ∧
    Forall2 (tag_sound cor) orig (tags ex) ∧
    Forall (λ tg, is_insert tg = false ∧ tg ≠ "KEEP_GAP") (tags ex).
Proof.
  destruct (diff_to_tags_sound orig cor) as (ex & Hd & Hall).
  exists ex. split_and!; try done.
  apply Forall2_Forall_r with (P := tag_sound cor) (l := orig); [done|].
  apply Forall_forall. by intros tok _ tg [[-> _]|[->|(w & _ & ->)]].
Qed.

(** ** Sequences without a common token *)

Section disjoint.
Variables orig cor : list string.
Hypothesis Hdisj : ∀ x, x ∈ orig → x ∉ cor.

Lemma get_opcodes_disjoint :
  get_opcodes orig cor =
  Some (nonequal_op 0 0 (length orig) (length cor)).
Proof.
  destruct (get_matching_blocks_total orig cor) as (c & Hc & Hch & _).
  destruct c as [|[[i j] k] c].
  - unfold get_opcodes. rewrite Hc. simpl. f_equal.
    unfold opcodes_of. rewrite opcodes_fold. simpl.
    by rewrite app_nil_r.
  - destruct Hch as (_ & _ & Hk & Hrun & _).
    destruct (Hrun 0 Hk) as (x & Ha & Hb). rewrite Nat.add_0_r in Ha, Hb.
    apply list_elem_of_lookup_2 in Ha, Hb. by destruct (Hdisj x).
Qed.

Lemma slice_all {A} (l : list A) : slice l 0 (length l) = l.
Proof. unfold slice. by rewrite Nat.sub_0_r, drop_0, firstn_all. Qed.

Lemma disjoint_alignment :
  diff_to_tags orig cor =
  Ok (mkTaggedExample orig
        (if decide (length orig = length cor)
         then (λ w, REPLACE +:+ w) <$> cor
         else replicate (length orig) DELETE)
        (if decide (length orig = length cor ∨ cor = [])
         then replicate (length orig + 1) "KEEP_GAP"
         else <[length orig := insert_entry cor]>
                (replicate (length orig + 1) "KEEP_GAP"))).
Proof.
  unfold diff_to_tags. rewrite get_opcodes_disjoint.
  unfold tags_of_opcodes, nonequal_op.
  destruct (decide (0 < length orig ∧ 0 < length cor)) as [[Ha Hb]|Hn].
  { cbn [walk]. rewrite !slice_all.
    assert (cor ≠ []) as Hne by (intros ->; simpl in Hb; lia).
    destruct (decide (length orig = length cor)) as [Hl|Hl].
    - rewrite (decide_True (P := length orig = length cor ∨ cor = []))
        by by left.
      rewrite app_nil_l. by rewrite decide_True by by rewrite length_fmap.
    - rewrite (decide_False (P := length orig = length cor ∨ cor = []))
        by naive_solver.
      rewrite app_nil_l, length_replicate, set_gap_ok
        by (rewrite length_replicate; lia).
      by rewrite decide_True by by rewrite length_replicate. }
  destruct (decide (0 < length orig)) as [Ha|Ha].
  { assert (cor = []) as -> by (destruct cor; [done|simpl in Hn; lia]).
    cbn [walk]. rewrite Nat.sub_0_r, app_nil_l.
    rewrite (decide_True (P := length (replicate _ _) = _))
      by by rewrite length_replicate.
    rewrite (decide_False (P := length orig = _)) by (simpl; lia).
    by rewrite decide_True by by right. }
  assert (orig = []) as -> by (destruct orig; [done|simpl in Ha; lia]).
  destruct (decide (0 < length cor)) as [Hb|Hb].
  - cbn [walk]. rewrite slice_all. simpl.
    assert (cor ≠ []) as Hne by (intros ->; simpl in Hb; lia).
    rewrite decide_False by lia.
    rewrite decide_False; [done|]. intros [?|?]; [lia|done].
  - assert (cor = []) as -> by (destruct cor; [done|simpl in Hb; lia]).
    done.
Qed.

End disjoint.

(** X8: sequences without a common token, an empty sequence among them.
    The matcher finds no block, so the whole of [orig] is set against
    the whole of [cor]: with equal lengths every token is tagged
    [REPLACE_] with the word at its position; otherwise every token is
    tagged [DELETE] and the words of [cor], if any, are recorded in the
    last gap entry. *)
Theorem diff_to_tags_disjoint (orig cor : list string) :
  (∀ x, x ∈ orig → x ∉ cor) →
  diff_to_tags orig cor =
  Ok (mkTaggedExample orig
        (if decide (length orig = length cor)
         then (λ w, REPLACE +:+ w) <$> cor
         else replicate (length orig) DELETE)
        (if decide (length orig = length cor ∨ cor = [])
         then replicate (length orig + 1) "KEEP_GAP"
         else <[length orig := insert_entry cor]>
                (replicate (length orig + 1) "KEEP_GAP"))).
Proof. apply disjoint_alignment. Qed.

Lemma diff_to_tags_disjoint_witness :
  diff_to_tags ["teh"; "cat"] ["a"; "big"; "dog"] =
  Ok (mkTaggedExample ["teh"; "cat"] [DELETE; DELETE]
        ["KEEP_GAP"; "KEEP_GAP"; "INSERT_a INSERT_big INSERT_dog"]).
Proof.
  apply (diff_to_tags_disjoint ["teh"; "cat"] ["a"; "big"; "dog"]).
  intros x Hx Hc. 
  repeat (apply elem_of_cons in Hx as [->|Hx]; [set_solver|]).
  set_solver.
Defined.

(** X9: the empty sequences.  Nothing to correct gives no tag and one
    untouched gap; an empty [orig] puts all of [cor] into the only gap;
    an empty [cor] tags every token [DELETE] and touches no gap. *)
Theorem diff_to_tags_empty (l : list string) :
  diff_to_tags [] [] = Ok (mkTaggedExample [] [] ["KEEP_GAP"]) ∧
  diff_to_tags [] l =
    Ok (mkTaggedExample [] [] [gap_of l]) ∧
  diff_to_tags l [] =
    Ok (mkTaggedExample l (replicate (length l) DELETE)
          (replicate (length l + 1) "KEEP_GAP")).
Proof.
  split_and!.
  - done.
  - rewrite disjoint_alignment by by intros x ?%elem_of_nil.
    unfold gap_of. simpl. destruct l as [|x l]; [done|].
    rewrite decide_False by done. rewrite decide_False; [done|].
    intros [?|?]; done.
  - rewrite disjoint_alignment by (intros x _; apply not_elem_of_nil).
    destruct l as [|x l]; [done|].
    rewrite decide_False by done. by rewrite decide_True by by right.
Qed.

(** ** The opcodes turn one sequence into the other *)

Section replay.
Variables a b : list string.

Lemma slice_drop {A} (l : list A) (j j2 : nat) :
  j ≤ j2 → slice l j j2 ++ drop j2 l = drop j l.
Proof.
  intros Hle. unfold slice.
  rewrite <- (take_drop (j2 - j) (drop j l)) at 2.
  rewrite drop_drop. do 2 f_equal. lia.
Qed.

Lemma replay_ok ops : ∀ i j,
  ops_ok a b i j ops →
  replay a b ops = drop j b ∧
  concat ((λ o, slice a (op_i1 o) (op_i2 o)) <$> ops) = drop i a ∧
  concat ((λ o, slice b (op_j1 o) (op_j2 o)) <$> ops) = drop j b.
Proof.
  induction ops as [|[t i1 i2 j1 j2] ops IH]; intros i j.
  { intros [-> ->]. by rewrite !drop_all. }
  intros (Hi & Hj & Hs & _ & Hrest). simpl in Hi, Hj, Hrest. subst i1 j1.
  destruct (IH _ _ Hrest) as (IH1 & IH2 & IH3).
  unfold replay in *. rewrite !fmap_cons.
  cbn [concat op_tag op_i1 op_i2 op_j1 op_j2].
  rewrite IH1, IH2, IH3.
  unfold op_shape in Hs. simpl in Hs.
  assert (i ≤ i2 ∧ j ≤ j2) as [Hii Hjj] by (destruct t; lia).
  rewrite !slice_drop by done. split; [|done].
  destruct t.
  - destruct Hs as (_ & _ & Hn & Hrun).
    rewrite <- (slice_drop b j j2) by done. f_equal.
    unfold slice. rewrite <- Hn. by apply same_run_slice.
  - destruct Hs as (_ & <-). done.
  - by apply slice_drop.
  - by apply slice_drop.
Qed.

End replay.

(** X10: the opcodes that [diff_to_tags] walks over describe how to
    turn [a] into [b]: their spans of [a] follow one another and make up
    [a], their spans of [b] make up [b], and carrying them out on [a]
    (copy at [equal], drop at [delete], take the span of [b] at
    [replace] and [insert]) yields [b]. *)
Theorem get_opcodes_replay (a b : list string) :
  ∃ ops, get_opcodes a b = Some ops ∧
    replay a b ops = b ∧
    concat ((λ o, slice a (op_i1 o) (op_i2 o)) <$> ops) = a ∧
    concat ((λ o, slice b (op_j1 o) (op_j2 o)) <$> ops) = b.
Proof.
  destruct (get_opcodes_total a b) as (ops & Hops & Hok).
  exists ops. split; [done|]. by apply (replay_ok a b ops 0 0).
Qed.

(** X11: [get_matching_blocks] returns within its turn budget.  Its
    result ends with the sentinel [(len(a), len(b), 0)]; the blocks
    before it are not empty, each matches ([a[i:i+k] == b[j:j+k]]), and
    each starts, in both sequences, at or after the end of the block
    before. *)
Theorem get_matching_blocks_chain (a b : list string) :
  ∃ c, get_matching_blocks a b = Some (c ++ [(length a, length b, 0)]) ∧
       chain_in a b 0 (length a) 0 (length b) c.
Proof. apply get_matching_blocks_total. Qed.

(** ** The vocabulary that [analyse] builds *)

Lemma str_le_antisym (s t : string) : str_le s t → str_le t s → s = t.
Proof. unfold str_le. apply String.leb_antisym. Qed.

Lemma sorted_head (l : list string) (x : string) :
  StronglySorted str_le l → x ∈ l → (∀ y, y ∈ l → str_le x y) →
  ∃ l', l = x :: l'.
Proof.
  intros Hs Hx Hmin. destruct l as [|h l]; [by apply elem_of_nil in Hx|].
  exists l. f_equal. apply elem_of_cons in Hx as [->|Hx]; [done|].
  apply str_le_antisym.
  - apply StronglySorted_inv in Hs as [_ Hall].
    by apply (proj1 (Forall_forall _ _) Hall).
  - apply Hmin, elem_of_cons. by left.
Qed.

(** A vocabulary over [KEEP], [DELETE] and [REPLACE_] tags. *)
Lemma vocab_layout (examples : list TaggedExample) :
  Forall (λ ex, Forall (λ tg, tg = KEEP ∨ tg = DELETE ∨ is_replace tg = true)
                       (tags ex)) examples →
  ∃ l, (build_tag_vocab examples).1 = DELETE :: KEEP :: l ∧
       Forall (λ tg, is_replace tg = true) l.
Proof.
  intros Hall. unfold build_tag_vocab. simpl.
  destruct (sorted_spec (tag_set_of examples)) as (Hs & Hnd & Hin).
  assert (∀ t, t ∈ sorted (tag_set_of examples) →
               t = KEEP ∨ t = DELETE ∨ is_replace t = true) as Hkind.
  { intros t [->|[->|(ex & Hex & Ht)]]%Hin%elem_of_tag_set_of;
      [by left|by right; left|].
    rewrite Forall_forall in Hall. specialize (Hall ex Hex).
    rewrite Forall_forall in Hall. by apply Hall. }
  assert (∀ t, is_replace t = true → str_le KEEP t ∧ str_le DELETE t) as Hrep.
  { by intros t [w ->]%prefix_split. }
  destruct (sorted_head _ DELETE Hs) as [l1 E1].
  { apply Hin, elem_of_tag_set_of. right. by left. }
  { intros y [->|[->|Hy]]%Hkind; [done|done|]. by apply Hrep. }
  rewrite E1 in Hs, Hnd, Hin, Hkind.
  apply StronglySorted_inv in Hs as [Hs1 _].
  apply NoDup_cons in Hnd as [Hd1 Hnd1].
  assert (KEEP ∈ l1) as Hk.
  { assert (KEEP ∈ DELETE :: l1) as [?|?]%elem_of_cons; [|done..].
    apply Hin, elem_of_tag_set_of. by left. }
  destruct (sorted_head _ KEEP Hs1 Hk) as [l2 E2].
  { intros y Hy. destruct (Hkind y) as [->|[->|Hr]];
      [apply elem_of_cons; by right|done|done|by apply Hrep]. }
  subst l1. apply NoDup_cons in Hnd1 as [Hd2 _].
  exists l2. split; [by rewrite E1|].
  apply Forall_forall. intros t Ht.
  destruct (Hkind t) as [->|[->|Hr]]; try done.
  - do 2 (apply elem_of_cons; right). done.
  - destruct Hd1. apply elem_of_cons. by right.
Qed.

Lemma analyse_fold (df : list (string * string)) : ∀ examples tagged_objs,
  ∃ tes,
    foldl analyse_step (Ok (examples, tagged_objs)) df =
      Ok (examples ++ ((λ te, (tokens te, tags te)) <$> tes),
          tagged_objs ++ tes) ∧
    Forall2 (λ row te,
      diff_to_tags (split (strip row.1)) (split (strip row.2)) = Ok te)
      df tes.
Proof.
  induction df as [|[orig corr] df IH]; intros examples tagged_objs.
  { exists []. simpl. by rewrite !app_nil_r. }
  destruct (diff_to_tags_total (split (strip orig)) (split (strip corr)))
    as (te & Hd & Htok & _).
  cbn [foldl analyse_step]. rewrite Hd.
  destruct (IH (examples ++ [(split (strip orig), tags te)])
               (tagged_objs ++ [te])) as (tes & Hf & Hall).
  exists (te :: tes). rewrite Hf, <- !app_assoc. simpl. rewrite Htok.
  split; [done|]. by constructor.
Qed.

Lemma analyse_spec (self : TagDatasetBuilder) (df : list (string * string)) :
  ∃ tes,
    analyse self df =
      Ok ((λ te, (tokens te, tags te)) <$> tes,
          mkTagDatasetBuilder true (build_tag_vocab tes).2) ∧
    Forall2 (λ row te,
      diff_to_tags (split (strip row.1)) (split (strip row.2)) = Ok te)
      df tes.
Proof.
  destruct (analyse_fold df [] []) as (tes & Hf & Hall).
  exists tes. unfold analyse. by rewrite Hf.
Qed.

Lemma analyse_tags_sound (df : list (string * string)) tes :
  Forall2 (λ row te,
    diff_to_tags (split (strip row.1)) (split (strip row.2)) = Ok te)
    df tes →
  Forall (λ ex, length (tags ex) = length (tokens ex) ∧
    Forall (λ tg, tg = KEEP ∨ tg = DELETE ∨ is_replace tg = true) (tags ex))
    tes.
Proof.
  intros Hall. eapply Forall2_Forall_r; [exact Hall|].
  apply Forall_forall. intros [orig corr] _ te Hd. simpl in Hd.
  destruct (diff_to_tags_total (split (strip orig)) (split (strip corr)))
    as (te1 & Hd1 & Htok & Hlen & _).
  destruct (diff_to_tags_sound (split (strip orig)) (split (strip corr)))
    as (te2 & Hd2 & Hsound).
  rewrite Hd in Hd1, Hd2. injection Hd1 as <-. injection Hd2 as <-.
  split; [by rewrite Htok|].
  eapply Forall2_Forall_r; [exact Hsound|].
  apply Forall_forall. intros tok _ tg [[-> _]|[->|(w & _ & ->)]].
  - by left.
  - right. by left.
  - right. right. apply is_replace_REPLACE.
Qed.

(** X12: the vocabulary that [analyse] leaves in the builder.  Every tag
    of [diff_to_tags] is [KEEP], [DELETE] or starts with [REPLACE_], and
    ["DELETE" < "KEEP" < "REPLACE_..."] in the order of [sorted]: so
    [DELETE] always gets the id 0 and [KEEP] the id 1, whatever the
    corpus, and an id from 2 on belongs to a [REPLACE_] tag. *)
Theorem analyse_vocab_ids (self : TagDatasetBuilder)
    (df : list (string * string)) :
  ∃ examples self',
    analyse self df = Ok (examples, self') ∧
    tag2id self' !! DELETE = Some 0 ∧
    tag2id self' !! KEEP = Some 1 ∧
    (∀ tg i, tag2id self' !! tg = Some i → 2 ≤ i → is_replace tg = true) ∧
    (∀ tg i j, tag2id self' !! tg = Some i → j < i →
               ∃ tg', tag2id self' !! tg' = Some j).
Proof.
  destruct (analyse_spec self df) as (tes & Ha & Hall).
  eexists _, _. split; [exact Ha|]. simpl.
  destruct (vocab_layout tes) as (l & Hl & Hrep).
  { eapply Forall_impl; [by eapply analyse_tags_sound|]. by intros ex [_ ?]. }
  destruct (sorted_spec (tag_set_of tes)) as (_ & Hnd & _).
  pose proof (index_map_lookup _ Hnd) as Hidx.
  unfold build_tag_vocab in Hl |- *. simpl in Hl |- *. rewrite Hl in Hidx |- *.
  split_and!.
  - by apply Hidx.
  - by apply Hidx.
  - intros tg [|[|i]] Hi Hge; try lia. apply Hidx in Hi. simpl in Hi.
    rewrite Forall_forall in Hrep. eapply Hrep, list_elem_of_lookup_2, Hi.
  - intros tg i j Hi Hj. apply Hidx in Hi.
    destruct (lookup_lt_is_Some_2 (DELETE :: KEEP :: l) j) as [tg' Hj'].
    { apply lookup_lt_Some in Hi. lia. }
    exists tg'. by apply Hidx.
Qed.


Section encode_facts.
Context {E : Type}.
Variable tok : list string → E.
Variable enc_word_ids : E → list (option nat).

Lemma encode_fold (self : TagDatasetBuilder) (keep_id : nat)
    (examples : list (list string * list string)) :
  tag2id self !! KEEP = Some keep_id →
  ∀ encoded_rows,
  foldl (encode_step tok enc_word_ids self) (Ok encoded_rows) examples =
  Ok (encoded_rows ++
      ((λ ex, (tok ex.1,
               imap (label_of (enc_word_ids (tok ex.1)) ex.2 (tag2id self)
                              keep_id)
                    (enc_word_ids (tok ex.1)))) <$> examples)).
Proof.
  intros Hk. induction examples as [|[orig_tokens tag_seq] examples IH];
    intros encoded_rows.
  { simpl. by rewrite app_nil_r. }
  cbn [foldl encode_step].
  rewrite (assign_labels_spec _ _ _ keep_id Hk), IH, <- app_assoc. done.
Qed.

End encode_facts.

(** X14: [encode_examples] and the state of the builder.  On a new
    builder it stops at its assertion, whatever the examples.  After
    [analyse] it returns, for any list of examples (those of [analyse],
    or a slice of them as in [build_dataset]), one row per example in
    the same order: the encoding of the tokens and one label per
    position of the encoding, [-100] away from the first sub-tokens. *)
Theorem encode_examples_rows {E : Type} (tok : list string → E)
    (enc_word_ids : E → list (option nat)) (self : TagDatasetBuilder)
    (df : list (string * string)) :
  (∀ exs, encode_examples tok enc_word_ids new_builder exs =
          Raises AssertionError) ∧
  ∃ examples self',
    analyse self df = Ok (examples, self') ∧
    ∀ exs, ∃ rows,
      encode_examples tok enc_word_ids self' exs = Ok rows ∧
      Forall2 (λ ex row,
        row.1 = tok ex.1 ∧
        length row.2 = length (enc_word_ids (tok ex.1)) ∧
        row.2 = imap (label_of (enc_word_ids (tok ex.1)) ex.2
                               (tag2id self') 1)
                     (enc_word_ids (tok ex.1))) exs rows.
Proof.
  split; [done|].
  destruct (analyse_spec self df) as (tes & Ha & Hall).
  eexists _, _. split; [exact Ha|]. intros exs.
  assert ((build_tag_vocab tes).2 !! KEEP = Some 1) as Hk.
  { destruct (vocab_layout tes) as (l & Hl & _).
    { eapply Forall_impl; [by eapply analyse_tags_sound|].
      by intros ex [_ ?]. }
    destruct (sorted_spec (tag_set_of tes)) as (_ & Hnd & _).
    apply (index_map_lookup _ Hnd).
    unfold build_tag_vocab in Hl. simpl in Hl. by rewrite Hl. }
  eexists. split.
  - unfold encode_examples. cbn [tag_vocab_built].
    by apply (encode_fold tok enc_word_ids _ 1).
  - rewrite app_nil_l. apply Forall2_fmap_r, Forall_Forall2_diag, Forall_forall.
    intros ex _. simpl. split_and!; [done| |done]. by rewrite length_imap.
Qed.

(** ** The selection loop of predict_sentence *)

Section select_facts.
Variables (word_ids : list (option nat)) (pred_ids : list nat).
Variable id2tag : gmap nat string.

Lemma select_fold_raises e (l : list (nat * option nat)) :
  foldl (select_step word_ids pred_ids id2tag) (Raises e) l = Raises e.
Proof. by induction l. Qed.

Lemma select_fold_diverges (l : list (nat * option nat)) :
  foldl (select_step word_ids pred_ids id2tag) Diverges l = Diverges.
Proof. by induction l. Qed.

Lemma select_step_first tags (p : nat * option nat) :
  select_step word_ids pred_ids id2tag (Ok tags) p =
  match first_word word_ids p with
  | Some iw =>
    match pred_ids !! iw.1 with
    | Some tag_id =>
      match id2tag !! tag_id with
      | Some tag => Ok (tags ++ [tag])
      | None => Raises KeyError
      end
    | None => Raises IndexError
    end
  | None => Ok tags
  end.
Proof.
  destruct p as [idx [w|]]; [|done]. unfold select_step, first_word.
  cbn [fst snd]. by destruct (decide _).
Qed.

Lemma select_fold (l : list (nat * option nat)) : ∀ tags,
  match foldl (select_step word_ids pred_ids id2tag) (Ok tags) l with
  | Ok tags' =>
    ∃ ts, tags' = tags ++ ts ∧
          Forall2 (predicted pred_ids id2tag) (omap (first_word word_ids) l) ts
  | Raises IndexError =>
    ∃ iw, iw ∈ omap (first_word word_ids) l ∧ pred_ids !! iw.1 = None
  | Raises KeyError =>
    ∃ iw tag_id, iw ∈ omap (first_word word_ids) l ∧
                 pred_ids !! iw.1 = Some tag_id ∧ id2tag !! tag_id = None
  | _ => False
  end.
Proof.
  induction l as [|p l IH]; intros tags.
  { simpl. exists []. by rewrite app_nil_r. }
  cbn [foldl omap list_omap]. rewrite select_step_first.
  destruct (first_word word_ids p) as [iw|]; [|apply IH].
  destruct (pred_ids !! iw.1) as [tag_id|] eqn:Hp.
  2:{ rewrite select_fold_raises. exists iw. split; [|done].
      apply elem_of_cons. by left. }
  destruct (id2tag !! tag_id) as [tg|] eqn:Hi.
  2:{ rewrite select_fold_raises. exists iw, tag_id.
      split; [|done]. apply elem_of_cons. by left. }
  specialize (IH (tags ++ [tg])).
  destruct (foldl _ _ l) as [tags'|[]|]; try done.
  - destruct IH as (ts & -> & Hall). exists (tg :: ts).
    rewrite <- app_assoc. split; [done|]. constructor; [|done].
    by exists tag_id.
  - destruct IH as (iw' & Hin & Hnone). exists iw'. split; [|done].
    apply elem_of_cons. by right.
  - destruct IH as (iw' & p' & Hin & Hsome). exists iw', p'. split; [|done].
    apply elem_of_cons. by right.
Qed.

Lemma predicted_functional (l : list (nat * nat)) : ∀ ts ts',
  Forall2 (predicted pred_ids id2tag) l ts →
  Forall2 (predicted pred_ids id2tag) l ts' → ts = ts'.
Proof.
  induction l as [|iw l IH]; intros ts ts' H1 H2.
  { apply Forall2_nil_inv_l in H1, H2. by subst. }
  apply Forall2_cons_inv_l in H1 as (t & ts1 & (p & Hp & Hi) & H1 & ->).
  apply Forall2_cons_inv_l in H2 as (t' & ts2 & (p' & Hp' & Hi') & H2 & ->).
  f_equal; [congruence|by apply IH].
Qed.

Lemma select_tags_Ok (tags : list string) :
  select_tags word_ids pred_ids id2tag = Ok tags ↔
  Forall2 (predicted pred_ids id2tag) (first_subtokens word_ids) tags.
Proof.
  unfold select_tags, first_subtokens.
  pose proof (select_fold (enumerate word_ids) []) as H.
  destruct (foldl _ _ _) as [tags'|e|].
  - destruct H as (ts & -> & Hall). simpl. split.
    + by intros [= <-].
    + intros Hall'. f_equal. by eapply predicted_functional.
  - split; [done|]. intros Hall. exfalso. destruct e; try done.
    + destruct H as (iw & Hin & Hnone).
      apply list_elem_of_lookup_1 in Hin as [k Hk].
      destruct (Forall2_lookup_l _ _ _ _ _ Hall Hk) as (tg & _ & p & Hp & _).
      congruence.
    + destruct H as (iw & p & Hin & Hp & Hnone).
      apply list_elem_of_lookup_1 in Hin as [k Hk].
      destruct (Forall2_lookup_l _ _ _ _ _ Hall Hk)
        as (tg & _ & p' & Hp' & Hi).
      congruence.
  - done.
Qed.

Lemma elem_of_first_subtokens (idx w : nat) :
  (idx, w) ∈ first_subtokens word_ids ↔ first_subtoken word_ids idx w.
Proof.
  unfold first_subtokens, first_subtoken. rewrite list_elem_of_omap. split.
  - intros ([k w_id] & Hin & Hf). apply elem_of_enumerate in Hin.
    unfold first_word in Hf. simpl in Hf. destruct w_id as [w'|]; [|done].
    destruct (decide _) as [Hc|]; [|done]. by injection Hf as -> ->.
  - intros [Hw Hc]. exists (idx, Some w). split; [by apply elem_of_enumerate|].
    unfold first_word. simpl. by rewrite decide_True.
Qed.

End select_facts.

(** X15: what the selection loop of [predict_sentence] returns.  It
    succeeds exactly when every first sub-token position has a
    predicted id and [id2tag] knows that id, and then returns the tags
    of these ids, one per first sub-token, in order.  It raises
    [IndexError] only at a first sub-token past the end of [pred_ids],
    [KeyError] only at one whose predicted id has no tag, and nothing
    else. *)
Theorem select_tags_outcome (word_ids : list (option nat))
    (pred_ids : list nat) (id2tag : gmap nat string) :
  (∀ tags, select_tags word_ids pred_ids id2tag = Ok tags ↔
     Forall2 (predicted pred_ids id2tag) (first_subtokens word_ids) tags) ∧
  (∀ idx w, (idx, w) ∈ first_subtokens word_ids ↔
            first_subtoken word_ids idx w) ∧
  (select_tags word_ids pred_ids id2tag = Raises IndexError →
   ∃ iw, iw ∈ first_subtokens word_ids ∧ length pred_ids ≤ iw.1) ∧
  (select_tags word_ids pred_ids id2tag = Raises KeyError →
   ∃ iw tag_id, iw ∈ first_subtokens word_ids ∧
                pred_ids !! iw.1 = Some tag_id ∧ id2tag !! tag_id = None) ∧
  select_tags word_ids pred_ids id2tag ≠ Raises AssertionError ∧
  select_tags word_ids pred_ids id2tag ≠ Diverges.
Proof.
  split; [apply select_tags_Ok|]. split; [apply elem_of_first_subtokens|].
  unfold select_tags, first_subtokens.
  pose proof (select_fold word_ids pred_ids id2tag (enumerate word_ids) [])
    as H.
  destruct (foldl _ _ _) as [tags'|[]|]; try done.
  split_and!; try done. intros _. destruct H as (iw & Hin & Hnone).
  exists iw. split; [done|]. by apply lookup_ge_None.
Qed.

Section labels_back.
Variables (word_ids : list (option nat)) (tag_seq : list string).
Variables (tag2id : gmap string nat) (keep_id : nat).

Lemma first_subtokens_label (idx w : nat) :
  (idx, w) ∈ first_subtokens word_ids →
  imap (label_of word_ids tag_seq tag2id keep_id) word_ids !! idx =
  Some (Z.of_nat (word_label tag_seq tag2id keep_id w)).
Proof.
  intros [Hw Hc]%elem_of_first_subtokens.
  rewrite list_lookup_imap, Hw. simpl. by rewrite decide_True.
Qed.

Lemma select_tags_labels (id2tag : gmap nat string) (pred_ids : list nat)
    (labels : list Z) :
  tag2id !! KEEP = Some keep_id →
  (∀ tg i, tag2id !! tg = Some i → id2tag !! i = Some tg) →
  Forall (λ tg, is_Some (tag2id !! tg)) tag_seq →
  (first_subtokens word_ids).*2 = seq 0 (length tag_seq) →
  assign_labels word_ids tag_seq tag2id = Ok labels →
  (∀ idx p, labels !! idx = Some (Z.of_nat p) → pred_ids !! idx = Some p) →
  select_tags word_ids pred_ids id2tag = Ok tag_seq.
Proof.
  intros HK Hinv Hall Hfw Hlab Hpred.
  rewrite (assign_labels_spec _ _ _ keep_id HK) in Hlab.
  injection Hlab as <-. apply select_tags_Ok.
  apply Forall2_same_length_lookup_2.
  { rewrite <- (length_fmap snd), Hfw. apply length_seq. }
  intros k [idx w] tg Hk Htg.
  assert (w = k) as ->.
  { assert ((first_subtokens word_ids).*2 !! k = Some w) as Hw
      by by rewrite list_lookup_fmap, Hk.
    rewrite Hfw in Hw. apply lookup_seq in Hw. lia. }
  exists (word_label tag_seq tag2id keep_id k). split.
  - apply Hpred, first_subtokens_label. by eapply list_elem_of_lookup_2.
  - unfold word_label. rewrite Htg.
    rewrite Forall_forall in Hall.
    destruct (Hall tg) as [i Hi]; [by eapply list_elem_of_lookup_2|].
    rewrite Hi. simpl. by apply Hinv.
Qed.

End labels_back.

(** X16: what training teaches, inference reads back.  Take the labels
    that [encode_examples] gives an example, and predictions that
    agree with them wherever the label is not [-100].  If [id2tag]
    inverts the vocabulary, every tag of the example has an id, and the
    first sub-tokens are those of the words [0 .. len(tag_seq) - 1] in
    order (no word is cut off), then the selection loop of
    [predict_sentence] returns the tag sequence of the example. *)
Theorem select_tags_of_labels (word_ids : list (option nat))
    (tag_seq : list string) (tag2id : gmap string nat) (keep_id : nat)
    (id2tag : gmap nat string) (pred_ids : list nat) (labels : list Z) :
  tag2id !! KEEP = Some keep_id →
  (∀ tg i, tag2id !! tg = Some i → id2tag !! i = Some tg) →
  Forall (λ tg, is_Some (tag2id !! tg)) tag_seq →
  (first_subtokens word_ids).*2 = seq 0 (length tag_seq) →
  assign_labels word_ids tag_seq tag2id = Ok labels →
  (∀ idx p, labels !! idx = Some (Z.of_nat p) → pred_ids !! idx = Some p) →
  select_tags word_ids pred_ids id2tag = Ok tag_seq.
Proof. apply select_tags_labels. Qed.

Lemma select_tags_of_labels_witness :
  select_tags [None; Some 0; Some 0; Some 1; None] [7; 1; 7; 2; 7]
              {[0 := DELETE; 1 := KEEP; 2 := "REPLACE_the"]} =
  Ok [KEEP; "REPLACE_the"].
Proof.
  apply (select_tags_of_labels
           [None; Some 0; Some 0; Some 1; None] [KEEP; "REPLACE_the"]
           {[DELETE := 0; KEEP := 1; "REPLACE_the" := 2]} 1
           {[0 := DELETE; 1 := KEEP; 2 := "REPLACE_the"]} [7; 1; 7; 2; 7]
           [IGNORE; 1%Z; IGNORE; 2%Z; IGNORE]).
  - reflexivity.
  - intros tg i.
    rewrite !lookup_insert_Some, !lookup_singleton_Some. naive_solver.
  - repeat constructor; by eexists.
  - reflexivity.
  - reflexivity.
  - intros [|[|[|[|[|idx]]]]] p Hp; simpl in Hp; try done;
      injection Hp as Hp; unfold IGNORE in Hp; try lia.
    + by replace p with 1 by lia.
    + by replace p with 2 by lia.
Defined.

(** ** The inverse vocabulary *)

Lemma id2tag_of_snoc (items : list (string * nat)) (kv : string * nat) :
  id2tag_of (items ++ [kv]) = <[kv.2 := kv.1]> (id2tag_of items).
Proof. unfold id2tag_of. by rewrite foldl_app. Qed.

Lemma id2tag_of_lookup (items : list (string * nat)) :
  NoDup items.*2 →
  ∀ i tg, id2tag_of items !! i = Some tg ↔ (tg, i) ∈ items.
Proof.
  induction items as [|[k0 v0] items IH] using rev_ind; intros Hnd i tg.
  { unfold id2tag_of. simpl. rewrite lookup_empty, elem_of_nil. naive_solver. }
  rewrite fmap_app in Hnd. apply NoDup_app in Hnd as (Hnd & Hnot & _).
  rewrite id2tag_of_snoc, lookup_insert_Some, elem_of_app.
  rewrite list_elem_of_singleton.
  rewrite (IH Hnd). simpl. split.
  - intros [[<- <-]|[_ ?]]; [by right|by left].
  - intros [Hin|[= -> ->]]; [|by left]. right. split; [|done].
    intros <-. apply (Hnot v0); [|by apply list_elem_of_singleton].
    apply list_elem_of_fmap. by exists (tg, v0).
Qed.

Lemma id2tag_of_vocab (tag_list : list string) (items : list (string * nat)) :
  NoDup tag_list → items ≡ₚ map_to_list (index_map tag_list) →
  ∀ i, id2tag_of items !! i = tag_list !! i.
Proof.
  intros Hnd Hperm i. pose proof (index_map_lookup _ Hnd) as Hidx.
  apply option_eq. intros tg. rewrite id2tag_of_lookup.
  - by rewrite Hperm, elem_of_map_to_list, Hidx.
  - rewrite Hperm. apply NoDup_fmap_2_strong; [|apply NoDup_map_to_list].
    intros [t1 i1] [t2 i2] H1%elem_of_map_to_list H2%elem_of_map_to_list.
    simpl. intros <-. apply Hidx in H1, H2. congruence.
Qed.

(** X17: [id2tag = {v: k for k, v in tag2id.items()}] inverts the
    vocabulary of [build_tag_vocab], in whatever order the dictionary
    yields its items: [id2tag[i]] is the [i]-th tag of [tag_list], and
    looking a tag up in [tag2id] and its id in [id2tag] gives the tag
    back. *)
Theorem id2tag_inverts_vocab (examples : list TaggedExample)
    (items : list (string * nat)) :
  items ≡ₚ map_to_list (build_tag_vocab examples).2 →
  (∀ i, id2tag_of items !! i = (build_tag_vocab examples).1 !! i) ∧
  (∀ tg i, (build_tag_vocab examples).2 !! tg = Some i ↔
           id2tag_of items !! i = Some tg) ∧
  (∀ i, is_Some (id2tag_of items !! i) ↔
        i < length (build_tag_vocab examples).1).
Proof.
  intros Hperm. unfold build_tag_vocab in *. simpl in *.
  destruct (sorted_spec (tag_set_of examples)) as (_ & Hnd & _).
  pose proof (id2tag_of_vocab _ _ Hnd Hperm) as Hinv.
  split_and!.
  - done.
  - intros tg i. by rewrite Hinv, (index_map_lookup _ Hnd).
  - intros i. rewrite Hinv. apply lookup_lt_is_Some.
Qed.

Lemma id2tag_inverts_vocab_witness :
  let examples :=
    [mkTaggedExample ["teh"; "cat"] ["REPLACE_the"; KEEP]
                     ["KEEP_GAP"; "KEEP_GAP"; "KEEP_GAP"]] in
  let items := map_to_list (build_tag_vocab examples).2 in
  (∀ i, id2tag_of items !! i = (build_tag_vocab examples).1 !! i) ∧
  (∀ tg i, (build_tag_vocab examples).2 !! tg = Some i ↔
           id2tag_of items !! i = Some tg) ∧
  (∀ i, is_Some (id2tag_of items !! i) ↔
        i < length (build_tag_vocab examples).1).
Proof.
  intros examples items. apply (id2tag_inverts_vocab examples items).
  reflexivity.
Defined.

(** ** Tokens: [strip] and [split] *)




















(** ** predict_sentence *)



(** ** The label loop without [KEEP] *)

Section labels_no_keep.
Variables (word_ids : list (option nat)) (tag_seq : list string).
Variable tag2id : gmap string nat.
Hypothesis HNOKEEP : tag2id !! KEEP = None.

Lemma label_step_raises e (l : list (nat * option nat)) :
  foldl (label_step word_ids tag_seq tag2id) (Raises e) l = Raises e.
Proof. by induction l. Qed.

Lemma label_step_no_keep labels (p : nat * option nat) :
  label_step word_ids tag_seq tag2id (Ok labels) p =
  match first_word word_ids p with
  | Some _ => Raises KeyError
  | None => Ok labels
  end.
Proof.
  destruct p as [idx [w|]]; [|done]. unfold label_step, first_word.
  cbn [fst snd]. destruct (decide _); [|done]. by rewrite HNOKEEP.
Qed.

Lemma label_fold_no_keep (l : list (nat * option nat)) labels :
  foldl (label_step word_ids tag_seq tag2id) (Ok labels) l =
  if decide (omap (first_word word_ids) l = []) then Ok labels
  else Raises KeyError.
Proof.
  induction l as [|p l IH]; [done|].
  cbn [foldl omap list_omap]. rewrite label_step_no_keep.
  destruct (first_word word_ids p); [|done].
  by rewrite label_step_raises, decide_False.
Qed.

End labels_no_keep.

(** X22: the label loop with a vocabulary that lacks [KEEP].  The id of
    [KEEP] is looked up at every first sub-token, whether it is needed
    or not: the loop raises [KeyError] as soon as the word ids hold one
    first sub-token, also when every tag of the example has an id.
    Without any first sub-token all labels stay [-100]. *)
Theorem assign_labels_without_keep (word_ids : list (option nat))
    (tag_seq : list string) (tag2id : gmap string nat) :
  tag2id !! KEEP = None →
  assign_labels word_ids tag_seq tag2id =
  if decide (first_subtokens word_ids = [])
  then Ok (replicate (length word_ids) IGNORE)
  else Raises KeyError.
Proof. intros H. by apply label_fold_no_keep. Qed.

Lemma assign_labels_without_keep_witness :
  assign_labels [None; Some 0; None] ["DELETE"] {[DELETE := 0]} =
  Raises KeyError.
Proof.
  apply (assign_labels_without_keep [None; Some 0; None] ["DELETE"]
                                    {[DELETE := 0]}).
  reflexivity.
Defined.

(** ** No edit *)

Lemma diff_to_tags_same (T : list string) :
  diff_to_tags T T =
  Ok (mkTaggedExample T (replicate (length T) KEEP)
                      (replicate (length T + 1) "KEEP_GAP")).
Proof.
  unfold diff_to_tags, tags_of_opcodes. rewrite get_opcodes_self.
  destruct (decide (length T ≠ 0)); simpl.
  - rewrite Nat.sub_0_r. by rewrite decide_True by by rewrite length_replicate.
  - assert (length T = 0) as -> by lia. done.
Qed.

(** X23: [diff_to_tags] reports no edit exactly when there is none: all
    tags are [KEEP] and all gap entries [KEEP_GAP] if and only if the
    two sequences are equal. *)
Theorem diff_to_tags_no_edit (orig cor : list string) :
  diff_to_tags orig cor =
    Ok (mkTaggedExample orig (replicate (length orig) KEEP)
                        (replicate (length orig + 1) "KEEP_GAP")) ↔
  orig = cor.
Proof.
  split; [|intros <-; apply diff_to_tags_same].
  intros Hd.
  destruct (diff_to_tags_words orig cor) as (ex & Hd' & _ & Hiff & _).
  rewrite Hd in Hd'. injection Hd' as <-. simpl in Hiff.
  rewrite apply_fold_keep in Hiff. apply Hiff.
  by apply Forall_replicate.
Qed.

(** ** Counting words *)

Lemma length_token_piece (tok tg : string) :
  length (token_piece (tok, tg)) = if decide (tg = DELETE) then 0 else 1.
Proof.
  unfold token_piece, apply_step.
  destruct (decide (tg = KEEP)) as [->|]; [done|].
  destruct (decide (tg = DELETE)); [done|]. by destruct (is_replace tg).
Qed.

Lemma length_pieces (tags : list string) : ∀ tokens : list string,
  length (concat (token_piece <$> zip tokens tags)) +
  length (filter (λ tg, tg = DELETE) (take (length tokens) tags)) =
  length tokens `min` length tags.
Proof.
  induction tags as [|tg tags IH]; intros [|tok tokens]; try done.
  change (length (token_piece (tok, tg) ++
                  concat (token_piece <$> zip tokens tags)) +
          length (filter (λ tg, tg = DELETE)
                         (tg :: take (length tokens) tags)) =
          S (length tokens `min` length tags)).
  rewrite length_app, length_token_piece, filter_cons, <- IH.
  destruct (decide (tg = DELETE)); simpl; lia.
Qed.

Lemma no_DELETE_filter (tags : list string) :
  length (filter (λ tg, tg = DELETE) tags) = 0 ↔ DELETE ∉ tags.
Proof.
  induction tags as [|tg tags IH].
  - split; [intros _; apply not_elem_of_nil|done].
  - rewrite filter_cons, not_elem_of_cons.
    destruct (decide (tg = DELETE)) as [->|Hne]; simpl.
    + split; [lia|]. by intros [? _].
    + rewrite IH. naive_solver.
Qed.

(** X24: [apply_tags] emits one word for every tag that is not
    [DELETE], among the tags that have a token: the number of words of
    its result and the number of [DELETE] tags add up to
    [min(len(tokens), len(tags))].  It never emits more words than
    there are tokens, and as many exactly when no tag in use is
    [DELETE] and no token is without a tag. *)
Theorem apply_tags_word_count (tokens tags : list string) :
  let out := foldl apply_step [] (zip tokens tags) in
  apply_tags tokens tags = join_spaces out ∧
  length out +
  length (filter (λ tg, tg = DELETE) (take (length tokens) tags)) =
    length tokens `min` length tags ∧
  length out ≤ length tokens ∧
  (length out = length tokens ↔
   length tokens ≤ length tags ∧ DELETE ∉ take (length tokens) tags).
Proof.
  intros out. subst out. rewrite apply_fold_pieces, app_nil_l.
  pose proof (length_pieces tags tokens) as H.
  split_and!; [unfold apply_tags; by rewrite apply_fold_pieces|done|lia|].
  rewrite <- no_DELETE_filter. lia.
Qed.

(** X25: the words are conserved.  For the result of [diff_to_tags] the
    length of the corrected sequence, plus the number of [DELETE] tags,
    equals the length of the original sequence plus the number of words
    recorded in the gap entries. *)
Theorem diff_to_tags_word_balance (orig cor : list string) :
  ∃ tags spans,
    diff_to_tags orig cor =
      Ok (mkTaggedExample orig tags (gap_of <$> spans)) ∧
    length cor + length (filter (λ tg, tg = DELETE) tags) =
    length orig + length (concat spans).
Proof.
  destruct (diff_to_tags_decode orig cor)
    as (tags' & spans & Hd & Hlen & Hsp & Hint).
  exists tags', spans. split; [done|].
  pose proof (length_pieces tags' orig) as H.
  rewrite <- Hlen, take_ge in H by done.
  pose proof (length_interleave spans (token_piece <$> zip orig tags')) as Hl.
  rewrite Hint, length_fmap, length_zip_with in Hl.
  specialize (Hl ltac:(lia)). lia.
Qed.

(** ** Labels and predictions are class indices *)

Lemma size_index_map (l : list string) :
  NoDup l → size (index_map l) = length l.
Proof.
  induction l as [|x l IH] using rev_ind; intros Hnd; [done|].
  apply NoDup_app in Hnd as (Hnd & Hnot & _).
  assert (index_map l !! x = None) as Hx.
  { destruct (index_map l !! x) as [i|] eqn:Hi; [|done].
    apply (index_map_lookup _ Hnd) in Hi. apply list_elem_of_lookup_2 in Hi.
    destruct (Hnot x Hi). by apply list_elem_of_singleton. }
  rewrite index_map_snoc, map_size_insert_None, IH, length_app by done.
  simpl. lia.
Qed.

Lemma label_of_range (word_ids : list (option nat)) (tag_seq : list string)
    (tag_list : list string) (keep_id idx : nat) (w_id : option nat) :
  NoDup tag_list → index_map tag_list !! KEEP = Some keep_id →
  label_of word_ids tag_seq (index_map tag_list) keep_id idx w_id = IGNORE ∨
  (0 ≤ label_of word_ids tag_seq (index_map tag_list) keep_id idx w_id
     < Z.of_nat (length tag_list))%Z.
Proof.
  intros Hnd Hk. unfold label_of. destruct w_id as [w|]; [|by left].
  destruct (decide _); [|by left]. right.
  assert (∀ tg i, index_map tag_list !! tg = Some i → i < length tag_list)
    as Hlt.
  { intros tg i Hi%(index_map_lookup _ Hnd). by eapply lookup_lt_Some. }
  unfold word_label. destruct (tag_seq !! w) as [tg|].
  - destruct (index_map tag_list !! tg) as [i|] eqn:Hi; simpl.
    + apply Hlt in Hi. lia.
    + apply Hlt in Hk. lia.
  - apply Hlt in Hk. lia.
Qed.

(** X26: the labels are class indices.  After [analyse] the vocabulary
    holds at least two tags, and every label that [encode_examples]
    writes, for any list of examples, is [-100] or an id of the
    vocabulary, [0 <= label < len(tag2id)]: the loss of the tagger,
    which ignores [-100] and has [len(tag2id)] classes, never sees a
    label out of range. *)
Theorem encode_labels_in_range {E : Type} (tok : list string → E)
    (enc_word_ids : E → list (option nat)) (self : TagDatasetBuilder)
    (df : list (string * string)) :
  ∃ examples self',
    analyse self df = Ok (examples, self') ∧
    2 ≤ size (tag2id self') ∧
    ∀ exs, ∃ rows,
      encode_examples tok enc_word_ids self' exs = Ok rows ∧
      Forall (λ row : E * list Z,
        Forall (λ l, l = IGNORE ∨
                     (0 ≤ l < Z.of_nat (size (tag2id self')))%Z) row.2)
        rows.
Proof.
  destruct (analyse_spec self df) as (tes & Ha & Hall).
  eexists _, _. split; [exact Ha|]. cbn [tag2id].
  destruct (vocab_layout tes) as (l & Hl & _).
  { eapply Forall_impl; [by eapply analyse_tags_sound|].
    by intros ex [_ ?]. }
  destruct (sorted_spec (tag_set_of tes)) as (_ & Hnd & _).
  unfold build_tag_vocab in *. simpl in Hl |- *.
  assert (index_map (sorted (tag_set_of tes)) !! KEEP = Some 1) as Hk.
  { apply (index_map_lookup _ Hnd). by rewrite Hl. }
  rewrite size_index_map by done. split; [rewrite Hl; simpl; lia|].
  intros exs. eexists. split.
  - unfold encode_examples. cbn [tag_vocab_built].
    by apply (encode_fold tok enc_word_ids _ 1).
  - rewrite app_nil_l. apply Forall_fmap, Forall_forall. intros ex _.
    apply Forall_forall. intros lab (idx & w_id & -> & _)%elem_of_lookup_imap.
    by apply label_of_range.
Qed.

Lemma first_subtokens_lt (word_ids : list (option nat)) (iw : nat * nat) :
  iw ∈ first_subtokens word_ids → iw.1 < length word_ids.
Proof.
  destruct iw as [idx w]. intros [Hw _]%elem_of_first_subtokens.
  by eapply lookup_lt_Some.
Qed.

Lemma select_tags_vocab (tag_list : list string)
    (items : list (string * nat)) (word_ids : list (option nat))
    (pred_ids : list nat) :
  NoDup tag_list → items ≡ₚ map_to_list (index_map tag_list) →
  length word_ids ≤ length pred_ids →
  Forall (λ tag_id, tag_id < length tag_list) pred_ids →
  ∃ tags, select_tags word_ids pred_ids (id2tag_of items) = Ok tags ∧
          length tags = length (first_subtokens word_ids) ∧
          Forall (λ tg, tg ∈ tag_list) tags.
Proof.
  intros Hnd Hperm Hlen Hall.
  pose proof (id2tag_of_vocab _ _ Hnd Hperm) as Hinv.
  assert (∀ iw, iw ∈ first_subtokens word_ids →
    ∃ tg, predicted pred_ids (id2tag_of items) iw tg ∧ tg ∈ tag_list) as Hp.
  { intros iw Hlt%first_subtokens_lt.
    destruct (lookup_lt_is_Some_2 pred_ids iw.1) as [p Hpi]; [lia|].
    rewrite Forall_forall in Hall.
    destruct (lookup_lt_is_Some_2 tag_list p) as [tg Htg].
    { eapply Hall, list_elem_of_lookup_2, Hpi. }
    exists tg. split; [|by eapply list_elem_of_lookup_2].
    exists p. by rewrite Hinv. }
  assert (∃ tags,
    Forall2 (predicted pred_ids (id2tag_of items))
            (first_subtokens word_ids) tags ∧
    Forall (λ tg, tg ∈ tag_list) tags) as (tags & H2 & Hin).
  { induction (first_subtokens word_ids) as [|iw l IH].
    - exists []. split; constructor.
    - destruct IH as (tags & H2 & Hin).
      { intros iw' Hin'. apply Hp, elem_of_cons. by right. }
      destruct (Hp iw) as (tg & Htg & Hmem); [apply elem_of_cons; by left|].
      exists (tg :: tags). split; by constructor. }
  exists tags. split_and!; [by apply select_tags_Ok| |done].
  symmetry. by eapply Forall2_length.
Qed.

(** X27: inference with the vocabulary of training cannot fail on an
    id.  If [id2tag] inverts a vocabulary of [build_tag_vocab], there
    is a prediction for every position, and every predicted id is below
    the size of the vocabulary (as the [argmax] over [len(tag2id)]
    classes is), then the selection loop of [predict_sentence] raises
    neither [IndexError] nor [KeyError]: it returns one tag of the
    vocabulary per first sub-token. *)
Theorem select_tags_in_vocab (examples : list TaggedExample)
    (items : list (string * nat)) (word_ids : list (option nat))
    (pred_ids : list nat) :
  items ≡ₚ map_to_list (build_tag_vocab examples).2 →
  length word_ids ≤ length pred_ids →
  Forall (λ tag_id, tag_id < size (build_tag_vocab examples).2) pred_ids →
  ∃ tags, select_tags word_ids pred_ids (id2tag_of items) = Ok tags ∧
          length tags = length (first_subtokens word_ids) ∧
          Forall (λ tg, tg ∈ (build_tag_vocab examples).1) tags.
Proof.
  unfold build_tag_vocab. simpl. intros Hperm Hlen Hall.
  destruct (sorted_spec (tag_set_of examples)) as (_ & Hnd & _).
  rewrite size_index_map in Hall by done. by apply select_tags_vocab.
Qed.

Lemma select_tags_in_vocab_witness :
  let examples :=
    [mkTaggedExample ["teh"; "cat"] ["REPLACE_the"; KEEP]
                     ["KEEP_GAP"; "KEEP_GAP"; "KEEP_GAP"]] in
  let items := map_to_list (build_tag_vocab examples).2 in
  ∃ tags,
    select_tags [None; Some 0; Some 1; None] [0; 2; 1; 0]
                (id2tag_of items) = Ok tags ∧
    length tags = length (first_subtokens [None; Some 0; Some 1; None]) ∧
    Forall (λ tg, tg ∈ (build_tag_vocab examples).1) tags.
Proof.
  intros examples items.
  apply (select_tags_in_vocab examples items
           [None; Some 0; Some 1; None] [0; 2; 1; 0]).
  - reflexivity.
  - simpl. lia.
  - vm_compute. repeat constructor.
Defined.
